(** * Enterprise data enhancer: a shallow embedding of [data_enhancer.py]

    The development follows [src/data-enhancement/data_enhancer.py]:
    the benchmark table, the keyword classifier, the three estimators, the
    row-wise fill pass over a data frame and the derivation of the report
    path in [main].

    Modelling conventions.
    - A Python float is a finite binary64 number, held as the rational it
      denotes ([Q]).  Where the code turns a float into an integer
      ([int()] in [estimate_employees]) or into printed digits (the
      percentages of the report), the binary64 rounding of each operation
      before that is written out ([fl], [fdiv], [fmul]), so that the
      integer or the digits are the code's.  Elsewhere (the profit
      estimate, the financial ratios) a result is given as the exact
      rational, which the float the code computes approaches to within
      rounding.  Infinite floats are not represented: a number in the
      model is always finite.  The not-a-number value only occurs as the
      missing-value marker of a table cell ([NaN]).
    - Python exceptions are values of [exn]; code that may raise returns a
      [result].
    - Python dictionaries are finite maps ([gmap]) keyed by strings.
    - Strings are byte strings holding the UTF-8 encoding of the source
      literals; substring tests on UTF-8 agree with tests on code points. *)

From Stdlib Require Import ZArith QArith Qround Qpower String Ascii Lia Lqa.
From stdpp Require Import gmap strings list fin_maps pretty.

Local Open Scope string_scope.

(** ** Exceptions and results *)

Inductive exn : Type :=
| TypeError
| KeyError
| ZeroDivisionError.

Inductive result (A : Type) : Type :=
| Ok (a : A)
| Raise (e : exn).

Arguments Ok {A} a.
Arguments Raise {A} e.

#[global] Instance result_ret : MRet result := fun _ a => Ok a.

#[global] Instance result_bind : MBind result := fun _ _ k r =>
  match r with
  | Ok a => k a
  | Raise e => Raise e
  end.

Definition is_ok {A} (r : result A) : bool :=
  match r with Ok _ => true | Raise _ => false end.

(** ** Values

    A table cell as [pandas.read_csv] produces it: the missing marker, a
    finite number, or text. *)

Inductive cell : Type :=
| NaN
| Num (x : Q)
| Str (s : string).

(** What [Series.get] hands back: [None] is Python's [None] (the column
    does not exist), [Some c] the cell. *)
Definition pyobj : Type := option cell.

(** [pd.isna]: true on [None] and on the missing marker. *)
Definition isna (v : pyobj) : bool :=
  match v with
  | None | Some NaN => true
  | Some _ => false
  end.

(** Arithmetic on a cell needs a number; [str / int] and [str * float]
    raise [TypeError]. *)
Definition as_float (c : cell) : result Q :=
  match c with
  | Num x => Ok x
  | NaN | Str _ => Raise TypeError
  end.

(** Python's [int()] on a float: truncation toward zero. *)
Definition py_int (x : Q) : Z := Z.quot (Qnum x) (Zpos (Qden x)).

(** Python's [/] on floats raises on a zero divisor. *)
Definition py_div (a b : Q) : result Q :=
  if Qeq_bool b 0 then Raise ZeroDivisionError else Ok (a / b)%Q.

(** Truthiness of an optional float: [None] and [0.0] are false. *)
Definition truthy (v : option Q) : bool :=
  match v with
  | None => false
  | Some x => negb (Qeq_bool x 0)
  end.

(** Python's [needle in hay] on strings. *)
Fixpoint str_in (needle hay : string) : bool :=
  String.prefix needle hay ||
  match hay with
  | EmptyString => false
  | String _ rest => str_in needle rest
  end.

(** ** The benchmark table *)

Record Benchmark : Type := mkBenchmark {
  roe : Q;
  roa : Q;
  debt_ratio : Q;
  employee_per_million_revenue : Z;
  profit_margin : Q
}.

Definition industry_benchmarks : gmap string Benchmark :=
  list_to_map [
    ("商贸零售", mkBenchmark 0.12 0.08 0.45 25 0.08);
    ("制造业",   mkBenchmark 0.15 0.10 0.55 15 0.12);
    ("金融业",   mkBenchmark 0.18 0.06 0.85 8  0.25);
    ("科技企业", mkBenchmark 0.20 0.12 0.35 12 0.18);
    ("交通运输", mkBenchmark 0.10 0.05 0.60 20 0.06)
  ].

#[global] Instance Benchmark_inhabited : Inhabited Benchmark :=
  populate (mkBenchmark 0 0 0 0 0).

(** [self.industry_benchmarks.get(industry_group,
    self.industry_benchmarks["商贸零售"])] *)
Definition benchmark_get (industry_group : string) : Benchmark :=
  default (industry_benchmarks !!! "商贸零售") (industry_benchmarks !! industry_group).

(** ** The industry classifier *)

Definition default_group : string := "商贸零售".

Definition classify_industry_group (industry_detail : cell) : result string :=
  match industry_detail with
  | Str s =>
      if str_in "零售" s || str_in "商贸" s then Ok "商贸零售"
      else if str_in "制造" s || str_in "机械" s || str_in "化工" s then Ok "制造业"
      else if str_in "金融" s || str_in "证券" s || str_in "银行" s then Ok "金融业"
      else if str_in "科技" s || str_in "软件" s || str_in "互联网" s then Ok "科技企业"
      else if str_in "运输" s || str_in "航运" s || str_in "物流" s then Ok "交通运输"
      else Ok "商贸零售"
  | NaN | Num _ => Raise TypeError
  end.

(** The keywords of the five rules, in the order the chain tests them. *)
Definition keywords : list string :=
  ["零售"; "商贸"; "制造"; "机械"; "化工"; "金融"; "证券"; "银行";
   "科技"; "软件"; "互联网"; "运输"; "航运"; "物流"].

Definition group_names : list string :=
  ["商贸零售"; "制造业"; "金融业"; "科技企业"; "交通运输"].

(** ** Binary64 arithmetic

    Rounding to the nearest integer, ties to even.  It is Python's
    [round()] on a float, which is what the word "round" of the
    specification denotes, and it is how a binary64 operation rounds its
    exact result to a 53-bit significand. *)
Definition py_round (x : Q) : Z :=
  let f := Qfloor x in
  match (x - inject_Z f ?= 1 # 2)%Q with
  | Lt => f
  | Gt => (f + 1)%Z
  | Eq => if Z.even f then f else (f + 1)%Z
  end.

(** The binade of a positive number [x]: the exponent [e] with
    [2 ^ e <= x < 2 ^ (e + 1)]. *)
Definition binade (x : Q) : Z :=
  let e := (Z.log2 (Qnum x) - Z.log2 (Zpos (Qden x)))%Z in
  if Qle_bool (2 ^ e) x then e else (e - 1)%Z.

(** A positive number rounded to 53 significant bits: to the nearest
    multiple of the unit in the last place of its binade, ties to the even
    multiple. *)
Definition round_pos (x : Q) : Q :=
  let ulp := (2 ^ (binade x - 52))%Q in
  (inject_Z (py_round (x / ulp)) * ulp)%Q.

(** The binary64 number nearest to [x] (round to nearest, ties to even),
    for [x] in the range of the normal binary64 numbers; rounding is
    symmetric about zero.  Every float operation of the code returns the
    rounding of its exact result. *)
Definition fl (x : Q) : Q :=
  match (x ?= 0)%Q with
  | Eq => 0%Q
  | Gt => round_pos x
  | Lt => (- round_pos (- x))%Q
  end.

(** The unit roundoff of binary64: rounding moves a number by at most
    this fraction of it. *)
Definition unit_roundoff : Q := (2 ^ (-53))%Q.

(** Python's [a / b] and [a * b] on floats ([b] nonzero for the first). *)
Definition fdiv (a b : Q) : Q := fl (a / b).

Definition fmul (a b : Q) : Q := fl (a * b).

(** ** The estimators

    [estimate_employees] passes its float product to [int()], so the two
    float operations are rounded as the code rounds them.  A quotient
    below the normal range is rounded more coarsely by the hardware than
    by [fl]; either way its product is below 1 in magnitude and [int()]
    gives 0.  The revenue is a finite float: on an infinite one [int()]
    raises [OverflowError], which is outside the model. *)

Definition estimate_employees (revenue : Q) (industry_group : string) : Z :=
  let benchmark := benchmark_get industry_group in
  let employee_per_million := employee_per_million_revenue benchmark in
  let revenue_in_millions := fdiv revenue 1000000 in
  Z.max (py_int (fmul revenue_in_millions (inject_Z employee_per_million))) 10.

Definition estimate_profit (revenue : Q) (industry_group : string) : Q :=
  let benchmark := benchmark_get industry_group in
  (revenue * profit_margin benchmark)%Q.

(** [if a and b:] on two optional floats: both are present and nonzero. *)
Definition both_truthy (a b : option Q) : option (Q * Q) :=
  match a, b with
  | Some x, Some y => if truthy a && truthy b then Some (x, y) else None
  | _, _ => None
  end.

Definition Qgtb (x y : Q) : bool := negb (Qle_bool x y).

Definition estimate_financial_ratios
    (total_assets net_profit revenue : option Q) (industry_group : string)
    : result (gmap string Q) :=
  let benchmark := benchmark_get industry_group in
  let ratios : gmap string Q := ∅ in
  (* ROE *)
  ratios ←
    match both_truthy net_profit total_assets with
    | Some (net_profit, total_assets) =>
        let estimated_net_assets := (total_assets * (1 - debt_ratio benchmark))%Q in
        v ← (if Qgtb estimated_net_assets 0
             then py_div net_profit estimated_net_assets
             else Ok (roe benchmark));
        Ok (<["roe" := v]> ratios)
    | None => Ok (<["roe" := roe benchmark]> ratios)
    end;
  (* ROA *)
  ratios ←
    match both_truthy net_profit total_assets with
    | Some (net_profit, total_assets) =>
        v ← py_div net_profit total_assets;
        Ok (<["roa" := v]> ratios)
    | None => Ok (<["roa" := roa benchmark]> ratios)
    end;
  let ratios := <["debt_ratio" := debt_ratio benchmark]> ratios in
  (* asset turnover *)
  ratios ←
    match both_truthy revenue total_assets with
    | Some (revenue, total_assets) =>
        v ← py_div revenue total_assets;
        Ok (<["total_asset_turnover" := v]> ratios)
    | None => Ok (<["total_asset_turnover" := 1%Q]> ratios)
    end;
  Ok ratios.

(** ** Data frames

    A frame is held column-wise, as pandas holds it: the ordered column
    labels and, per label, the cells of that column.  Rows are indexed
    [0 .. nrows - 1] (the [RangeIndex] that [read_csv] builds). *)

Record DataFrame : Type := mkDataFrame {
  nrows : nat;
  columns : list string;
  data : gmap string (list cell)
}.

(** The frame invariant: the labelled columns are exactly the stored ones
    and each holds one cell per row. *)
Definition wf_frame (df : DataFrame) : bool :=
  bool_decide (dom (data df) = list_to_set (columns df)) &&
  forallb (fun col =>
             match data df !! col with
             | Some l => Nat.eqb (length l) (nrows df)
             | None => false
             end) (columns df).

(** [row.get(col)] for the row at [idx]. *)
Definition row_get (df : DataFrame) (idx : nat) (col : string) : pyobj :=
  data df !! col ≫= (fun l => l !! idx).

(** [row[col]] used as a number. *)
Definition row_getitem_float (df : DataFrame) (idx : nat) (col : string) : result Q :=
  match row_get df idx col with
  | Some c => as_float c
  | None => Raise KeyError
  end.

Definition is_nan (c : cell) : bool :=
  match c with NaN => true | _ => false end.

(** [df[col].isnull().sum()] *)
Definition null_count (l : list cell) : nat := length (List.filter is_nan l).

Definition missing_count (df : DataFrame) (col : string) : nat :=
  null_count (default [] (data df !! col)).

(** [df.loc[idx, col] = v].  On a label that is not yet a column pandas
    enlarges the frame: the column is appended, missing everywhere but at
    [idx].  An existing column is taken to accept the value, as a column
    of numbers or of mixed objects does. *)
Definition loc_set (df : DataFrame) (idx : nat) (col : string) (v : cell) : DataFrame :=
  match data df !! col with
  | Some l =>
      mkDataFrame (nrows df) (columns df) (<[col := <[idx := v]> l]> (data df))
  | None =>
      mkDataFrame (nrows df) (columns df ++ [col])
                  (<[col := <[idx := v]> (replicate (nrows df) NaN)]> (data df))
  end.

(** ** The enhancement log *)

Record Log : Type := mkLog {
  original_missing : gmap string nat;
  enhanced_fields : list string;
  enhancement_methods : gmap string string;
  final_missing : gmap string nat;
  total_records : nat;
  fields_enhanced : nat;
  missing_reduction : Z
}.

(** The two counting loops: one entry per column with a positive count. *)
Definition missing_by_column (df : DataFrame) : gmap string nat :=
  foldl (fun acc col =>
           let missing_count := missing_count df col in
           if Nat.ltb 0 missing_count then <[col := missing_count]> acc else acc)
        ∅ (columns df).

Definition note_enhanced (field method : string) (log : Log) : Log :=
  if bool_decide (field ∈ enhanced_fields log) then log
  else mkLog (original_missing log)
             (enhanced_fields log ++ [field])
             (<[field := method]> (enhancement_methods log))
             (final_missing log) (total_records log)
             (fields_enhanced log) (missing_reduction log).

(** ** The fill pass

    One iteration of [for idx, row in df.iterrows()].  [row] is the row of
    the frame as [iterrows] hands it out; the iteration at [idx] is the
    only one that writes row [idx], and it reads each cell before writing
    it, so reading [row] from the frame as it was when the loop started
    ([snap]) is what the loop does. *)
Definition enhance_row (snap : DataFrame) (idx : nat) (st : DataFrame * Log)
    : result (DataFrame * Log) :=
  let '(df, log) := st in
  industry_group ←
    classify_industry_group (default (Str "") (row_get snap idx "industry_type"));
  '(df, log) ←
    (if isna (row_get snap idx "employee_count") && negb (isna (row_get snap idx "revenue"))
     then
       revenue ← row_getitem_float snap idx "revenue";
       let estimated_employees := estimate_employees revenue industry_group in
       Ok (loc_set df idx "employee_count" (Num (inject_Z estimated_employees)),
           note_enhanced "employee_count" "基于营收和行业标杆估算" log)
     else Ok (df, log));
  if isna (row_get snap idx "net_profit") && negb (isna (row_get snap idx "revenue"))
  then
    revenue ← row_getitem_float snap idx "revenue";
    let estimated_profit := estimate_profit revenue industry_group in
    Ok (loc_set df idx "net_profit" (Num estimated_profit),
        note_enhanced "net_profit" "基于营收和行业利润率估算" log)
  else Ok (df, log).

Fixpoint enhance_rows (snap : DataFrame) (idxs : list nat) (st : DataFrame * Log)
    : result (DataFrame * Log) :=
  match idxs with
  | [] => Ok st
  | idx :: rest => st' ← enhance_row snap idx st; enhance_rows snap rest st'
  end.

(** [enhance_csv_data]: [df] is the frame read from the input file; the
    frame of the result is what [to_csv] writes to the output file. *)
Definition enhance_csv_data (df : DataFrame) : result (DataFrame * Log) :=
  let enhancement_log := mkLog (missing_by_column df) [] ∅ ∅ 0 0 0 in
  '(df, enhancement_log) ← enhance_rows df (seq 0 (nrows df)) (df, enhancement_log);
  let enhanced_missing := missing_by_column df in
  Ok (df,
      mkLog (original_missing enhancement_log)
            (enhanced_fields enhancement_log)
            (enhancement_methods enhancement_log)
            enhanced_missing
            (nrows df)
            (length (enhanced_fields enhancement_log))
            (Z.of_nat (size (original_missing enhancement_log))
             - Z.of_nat (size enhanced_missing))).

(** ** The report path

    Python's [str.replace(old, new)] for a non-empty [old]: occurrences are
    found left to right and do not overlap.  [skip] counts the characters
    of a match still to be dropped. *)
Fixpoint str_replace_from (old new : string) (skip : nat) (s : string) : string :=
  match s with
  | EmptyString => EmptyString
  | String c rest =>
      match skip with
      | S k => str_replace_from old new k rest
      | O =>
          if String.prefix old s
          then new +:+ str_replace_from old new (String.length old - 1) rest
          else String c (str_replace_from old new 0 rest)
      end
  end.

Definition str_replace (old new s : string) : string := str_replace_from old new 0 s.

(** [report_file = output_file.replace('.csv', '_enhancement_report.md')] *)
Definition report_file (output_file : string) : string :=
  str_replace ".csv" "_enhancement_report.md" output_file.

(** ** Reference definitions used in the statements *)

(** The employee estimate as the specification words it: the scaled
    revenue, with [round]. *)
Definition estimate_employees_rounded (revenue : Q) (industry_group : string) : Z :=
  let benchmark := benchmark_get industry_group in
  Z.max (py_round (revenue / 1000000
                   * inject_Z (employee_per_million_revenue benchmark))%Q) 10.

(** The value each key of the ratio dictionary holds, read off the
    branches of [estimate_financial_ratios]. *)
Definition roe_value (total_assets net_profit : option Q) (b : Benchmark) : Q :=
  match both_truthy net_profit total_assets with
  | Some (n, t) =>
      if Qgtb (t * (1 - debt_ratio b)) 0 then (n / (t * (1 - debt_ratio b)))%Q else roe b
  | None => roe b
  end.

Definition roa_value (total_assets net_profit : option Q) (b : Benchmark) : Q :=
  match both_truthy net_profit total_assets with
  | Some (n, t) => (n / t)%Q
  | None => roa b
  end.

Definition turnover_value (total_assets revenue : option Q) : Q :=
  match both_truthy revenue total_assets with
  | Some (r, t) => (r / t)%Q
  | None => 1%Q
  end.

(** [row.get('industry_type', '')] *)
Definition label_of (df : DataFrame) (idx : nat) : cell :=
  default (Str "") (row_get df idx "industry_type").

(** The guard of both fill branches, for the column [col]. *)
Definition needs_fill (df : DataFrame) (idx : nat) (col : string) : bool :=
  isna (row_get df idx col) && negb (isna (row_get df idx "revenue")).

(** The cells the two branches write. *)
Definition employees_cell (revenue : Q) (g : string) : cell :=
  Num (inject_Z (estimate_employees revenue g)).

Definition profit_cell (revenue : Q) (g : string) : cell :=
  Num (estimate_profit revenue g).

(** Every stored column holds [n] cells. *)
Definition sized (n : nat) (df : DataFrame) : Prop :=
  ∀ c l, data df !! c = Some l → length l = n.

(** What the loop keeps true of the frame it writes, relative to the
    frame [snap] it started from. *)
Record frame_inv (snap df : DataFrame) : Prop := mkFrameInv {
  fi_nrows : nrows df = nrows snap;
  fi_sized : sized (nrows snap) df;
  fi_data : ∀ c, c ≠ "employee_count" → c ≠ "net_profit" → data df !! c = data snap !! c;
  fi_columns : ∀ c, c ≠ "employee_count" → c ≠ "net_profit" →
                    c ∈ columns df ↔ c ∈ columns snap;
  fi_mono : ∀ c, c ∈ columns snap → c ∈ columns df;
  fi_stored : ∀ c, is_Some (data snap !! c) → is_Some (data df !! c);
  fi_dom : dom (data df) = list_to_set (columns df)
}.

(** The cells of one fillable column [col] once the rows in [done] have
    been visited; [est] is the estimator the branch for [col] calls. *)
Record col_inv (snap : DataFrame) (col : string) (est : Q → string → cell)
    (done : list nat) (df : DataFrame) : Prop := mkColInv {
  ci_kept : ∀ i, isna (row_get snap i col) = false →
                 row_get df i col = row_get snap i col;
  ci_filled : ∀ i, i ∈ done → needs_fill snap i col = true →
      ∃ g r, classify_industry_group (label_of snap i) = Ok g
             ∧ row_get snap i "revenue" = Some (Num r)
             ∧ row_get df i col = Some (est r g);
  ci_missing : ∀ i, i ∉ done ∨ needs_fill snap i col = false →
      isna (row_get snap i col) = true → isna (row_get df i col) = true
}.

(** ** Sample tables *)

(** Three enterprises: a software company without head count or profit,
    a bank without revenue, and a company of no recognised industry whose
    head count is known. *)
Definition example_frame : DataFrame :=
  mkDataFrame 3
    ["industry_type"; "revenue"; "employee_count"; "net_profit"; "name"]
    (list_to_map
       [("industry_type", [Str "软件开发"; Str "银行"; Str ""]);
        ("revenue", [Num 10000000; NaN; Num 1750000]);
        ("employee_count", [NaN; NaN; Num 7]);
        ("net_profit", [NaN; NaN; NaN]);
        ("name", [Str "a"; NaN; Str "c"])]).

(** One row whose cells are all empty in the input file: [read_csv]
    yields the missing marker for each, the industry label included. *)
Definition unlabelled_frame : DataFrame :=
  mkDataFrame 1
    ["industry_type"; "revenue"; "employee_count"; "net_profit"]
    (list_to_map
       [("industry_type", [NaN]);
        ("revenue", [NaN]);
        ("employee_count", [NaN]);
        ("net_profit", [NaN])]).

(** Two retail enterprises in a table that has no [employee_count]
    column; the second has no revenue. *)
Definition headcount_free_frame : DataFrame :=
  mkDataFrame 2
    ["industry_type"; "revenue"; "net_profit"]
    (list_to_map
       [("industry_type", [Str "零售"; Str "零售"]);
        ("revenue", [Num 5000000; NaN]);
        ("net_profit", [Num 400000; Num 1])]).

(** ** The report

    [generate_enhancement_report] loops over the items of two of the
    log's dictionaries, so for it the log is kept with the items in
    insertion order. *)

Definition nl : string := String "010"%char EmptyString.

(** The lines of a triple-quoted template, each closed by a newline. *)
Definition unlines (ls : list string) : string :=
  foldr (fun l acc => l +:+ nl +:+ acc) EmptyString ls.

(** [d[k] = v] on the items of a dictionary: an existing key keeps its
    place, a new one goes last. *)
Fixpoint od_insert {V : Type} (k : string) (v : V) (d : list (string * V))
    : list (string * V) :=
  match d with
  | [] => [(k, v)]
  | (k', v') :: d' =>
      if decide (k' = k) then (k', v) :: d' else (k', v') :: od_insert k v d'
  end.

(** The counting loop of [enhance_csv_data] again, keeping the items in the
    order the loop inserts them. *)
Definition missing_items (df : DataFrame) : list (string * nat) :=
  foldl (fun acc col =>
           let missing_count := missing_count df col in
           if Nat.ltb 0 missing_count then od_insert col missing_count acc else acc)
        [] (columns df).

Record ReportLog : Type := mkReportLog {
  rl_original_missing : list (string * nat);
  rl_enhanced_fields : list string;
  rl_enhancement_methods : gmap string string;
  rl_final_missing : list (string * nat);
  rl_total_records : nat;
  rl_fields_enhanced : nat;
  rl_missing_reduction : Z
}.

(** The log [enhance_csv_data] returns for the input frame [df] and the
    output frame [out], with its two count dictionaries in item order. *)
Definition report_log (df out : DataFrame) (log : Log) : ReportLog :=
  mkReportLog (missing_items df) (enhanced_fields log) (enhancement_methods log)
              (missing_items out) (total_records log) (fields_enhanced log)
              (missing_reduction log).

(** [f"{x:.1f}"] for a float that is not negative (a percentage): one
    digit after the point, the exact value of the float rounded half to
    even. *)
Definition format_1f (x : Q) : string :=
  let tenths := py_round (x * 10)%Q in
  pretty (tenths / 10)%Z +:+ "." +:+ pretty (tenths mod 10)%Z.

(** One pass of either statistics loop: the percentage, then the line.
    The quotient and the product are floats, and the digits printed are
    those of the float. *)
Definition missing_line (total_records : nat) (item : string * nat) : result string :=
  let '(field, count) := item in
  ratio ← py_div (inject_Z (Z.of_nat count)) (inject_Z (Z.of_nat total_records));
  let percentage := fmul (fl ratio) 100 in
  Ok ("- " +:+ field +:+ ": " +:+ pretty count +:+ "条缺失 ("
      +:+ format_1f percentage +:+ "%)" +:+ nl).

Fixpoint add_missing_lines (total_records : nat) (items : list (string * nat))
    (report : string) : result string :=
  match items with
  | [] => Ok report
  | item :: rest =>
      line ← missing_line total_records item;
      add_missing_lines total_records rest (report +:+ line)
  end.

Definition add_field_lines (methods : gmap string string) (fields : list string)
    (report : string) : string :=
  foldl (fun report field =>
           let method := default "未知方法" (methods !! field) in
           report +:+ "- " +:+ field +:+ ": " +:+ method +:+ nl)
        report fields.

(** The text [generate_enhancement_report] builds before it opens the
    report file. *)
Definition render_report (log : ReportLog) : result string :=
  let report :=
    unlines ["# 数据增强报告"; EmptyString; "## 原始数据情况";
             "总记录数：" +:+ pretty (rl_total_records log); EmptyString;
             "### 缺失字段统计（增强前）"] in
  report ← add_missing_lines (rl_total_records log) (rl_original_missing log) report;
  let report :=
    report +:+ unlines [EmptyString; "## 增强处理结果"; EmptyString; "### 增强的字段"] in
  let report :=
    add_field_lines (rl_enhancement_methods log) (rl_enhanced_fields log) report in
  let report := report +:+ unlines [EmptyString; "### 缺失字段统计（增强后）"] in
  report ← add_missing_lines (rl_total_records log) (rl_final_missing log) report;
  Ok (report +:+
      unlines [EmptyString; "## 改善总结";
               "- 增强字段数量: " +:+ pretty (rl_fields_enhanced log);
               "- 数据完整性改善: " +:+ pretty (rl_missing_reduction log) +:+ "个字段组";
               "- 数据可用性: 显著提升"; EmptyString;
               "## 使用说明";
               "1. 增强数据仅用于算法测试和学习";
               "2. 不作为真实投资决策依据  ";
               "3. 建议结合公开信息进一步验证"]).

(** ** The command line

    The program's world: the files, by path, and the lines printed.  A
    command either finishes with a value, leaves through [sys.exit], or
    fails with an exception; writes made before that stay. *)

Record World : Type := mkWorld {
  files : gmap string string;
  stdout : list string
}.

Inductive ioresult (A : Type) : Type :=
| Done (a : A)
| Exit (code : Z)
| Fail (e : exn).

Arguments Done {A} a.
Arguments Exit {A} code.
Arguments Fail {A} e.

Definition io (A : Type) : Type := World → World * ioresult A.

#[global] Instance io_ret : MRet io := fun _ a w => (w, Done a).

#[global] Instance io_bind : MBind io := fun _ _ k m w =>
  match m w with
  | (w', Done a) => k a w'
  | (w', Exit code) => (w', Exit code)
  | (w', Fail e) => (w', Fail e)
  end.

Definition print (line : string) : io unit :=
  fun w => (mkWorld (files w) (stdout w ++ [line]), Done tt).

Definition sys_exit {A : Type} (code : Z) : io A := fun w => (w, Exit code).

(** [open(path, 'w').write(text)].  Every path is taken to be writable:
    a run in which [open] fails (a missing directory, no permission) is
    not described, and what is stated of the files after a command is
    stated of a run whose writes went through. *)
Definition write_file (path text : string) : io unit :=
  fun w => (mkWorld (<[path := text]> (files w)) (stdout w), Done tt).

(** A computation that may raise, run as a command. *)
Definition run {A : Type} (r : result A) : io A :=
  fun w => match r with Ok a => (w, Done a) | Raise e => (w, Fail e) end.

Definition generate_enhancement_report (log : ReportLog) (output_file : string)
    : io unit :=
  report ← run (render_report log);
  write_file output_file report.

(** Python's [s.endswith(suffix)]. *)
Definition str_endswith (s suffix : string) : bool :=
  let n := String.length s in
  let k := String.length suffix in
  Nat.leb k n && String.eqb (String.substring (n - k) k s) suffix.

(** The two pandas calls at the boundary are library code: reading a
    table from the file at a path, and the text of a table
    ([to_csv(index=False)]). *)
Section command_line.

Variable read_csv : gmap string string → string → result DataFrame.
Variable to_csv : DataFrame → string.

(** [enhance_csv_data(input_file, output_file)] with its file accesses. *)
Definition enhance_csv_file (input_file output_file : string) : io ReportLog :=
  df ← (fun w => run (read_csv (files w) input_file) w);
  '(out, log) ← run (enhance_csv_data df);
  _ ← write_file output_file (to_csv out);
  mret (report_log df out log).

(** [main], on [sys.argv]. *)
Definition main (argv : list string) : io unit :=
  match argv with
  | _ :: input_file :: output_file :: _ =>
      _ ← print ("开始增强数据: " +:+ input_file);
      log ← (if str_endswith input_file ".csv"
             then enhance_csv_file input_file output_file
             else _ ← print "错误：目前只支持 .csv 格式"; sys_exit 1);
      let report_file := report_file output_file in
      _ ← generate_enhancement_report log report_file;
      _ ← print "数据增强完成!";
      _ ← print ("输出文件: " +:+ output_file);
      _ ← print ("增强报告: " +:+ report_file);
      print ("增强了 " +:+ pretty (rl_fields_enhanced log) +:+ " 个字段")
  | _ =>
      _ ← print "使用方法：";
      _ ← print "python data_enhancer.py <input_file> <output_file>";
      _ ← print "支持 .csv 和 .json 格式";
      sys_exit 1
  end.

End command_line.

(** ** Further reference definitions *)

(** What makes the iteration over row [idx] raise: a label that is not
    text, or a revenue that is text where a field has to be estimated. *)
Definition raises_in_row (df : DataFrame) (idx : nat) : Prop :=
  classify_industry_group (label_of df idx) = Raise TypeError
  ∨ ∃ s, row_get df idx "revenue" = Some (Str s)
         ∧ (isna (row_get df idx "employee_count") = true
            ∨ isna (row_get df idx "net_profit") = true).

(** The description each branch logs for its field. *)
Definition method_recorded (f m : string) : Prop :=
  (f = "employee_count" ∧ m = "基于营收和行业标杆估算")
  ∨ (f = "net_profit" ∧ m = "基于营收和行业利润率估算").

(** Every way a run of [main] can go. *)
Inductive main_run (read_csv : gmap string string → string → result DataFrame)
    (to_csv : DataFrame → string) (argv : list string) (w : World)
    : World * ioresult unit → Prop :=
| run_usage :
    length argv < 3 →
    main_run read_csv to_csv argv w
      (mkWorld (files w)
         (stdout w ++ ["使用方法："; "python data_enhancer.py <input_file> <output_file>";
                       "支持 .csv 和 .json 格式"]),
       Exit 1)
| run_unsupported prog input output rest :
    argv = prog :: input :: output :: rest →
    str_endswith input ".csv" = false →
    main_run read_csv to_csv argv w
      (mkWorld (files w)
         (stdout w ++ ["开始增强数据: " +:+ input; "错误：目前只支持 .csv 格式"]),
       Exit 1)
| run_unreadable prog input output rest e :
    argv = prog :: input :: output :: rest →
    str_endswith input ".csv" = true →
    read_csv (files w) input = Raise e →
    main_run read_csv to_csv argv w
      (mkWorld (files w) (stdout w ++ ["开始增强数据: " +:+ input]), Fail e)
| run_pass_failed prog input output rest df e :
    argv = prog :: input :: output :: rest →
    str_endswith input ".csv" = true →
    read_csv (files w) input = Ok df →
    enhance_csv_data df = Raise e →
    main_run read_csv to_csv argv w
      (mkWorld (files w) (stdout w ++ ["开始增强数据: " +:+ input]), Fail e)
| run_report_failed prog input output rest df out log e :
    argv = prog :: input :: output :: rest →
    str_endswith input ".csv" = true →
    read_csv (files w) input = Ok df →
    enhance_csv_data df = Ok (out, log) →
    render_report (report_log df out log) = Raise e →
    main_run read_csv to_csv argv w
      (mkWorld (<[output := to_csv out]> (files w))
         (stdout w ++ ["开始增强数据: " +:+ input]),
       Fail e)
| run_done prog input output rest df out log report :
    argv = prog :: input :: output :: rest →
    str_endswith input ".csv" = true →
    read_csv (files w) input = Ok df →
    enhance_csv_data df = Ok (out, log) →
    render_report (report_log df out log) = Ok report →
    main_run read_csv to_csv argv w
      (mkWorld (<[report_file output := report]> (<[output := to_csv out]> (files w)))
         (stdout w ++ ["开始增强数据: " +:+ input; "数据增强完成!";
                       "输出文件: " +:+ output;
                       "增强报告: " +:+ report_file output;
                       "增强了 " +:+ pretty (fields_enhanced log) +:+ " 个字段"]),
       Done tt).

(** ** Further samples *)

(** A log that reports a missing value of a table without records. *)
Definition zero_records_log : ReportLog :=
  mkReportLog [("revenue", 1)] [] ∅ [] 0 0 1.

(** A stand-in for the two pandas calls, for the examples: any file that
    exists reads as the sample table, and a table is written as a fixed
    text. *)
Definition sample_read_csv (fs : gmap string string) (path : string) : result DataFrame :=
  match fs !! path with
  | Some _ => Ok example_frame
  | None => Raise KeyError
  end.

Definition sample_to_csv (df : DataFrame) : string := "table".

Definition sample_world : World := mkWorld {["in.csv" := "input"]} [].

(** * Properties *)

(** ** Estimators *)

(** Whatever the group name, the benchmark in use is one of the five rows
    of the table (an unknown name falls back to the retail row). *)
Lemma benchmark_get_cases g :
  benchmark_get g ∈ [mkBenchmark 0.12 0.08 0.45 25 0.08;
                     mkBenchmark 0.15 0.10 0.55 15 0.12;
                     mkBenchmark 0.18 0.06 0.85 8  0.25;
                     mkBenchmark 0.20 0.12 0.35 12 0.18;
                     mkBenchmark 0.10 0.05 0.60 20 0.06].
Proof.
  unfold benchmark_get.
  destruct (industry_benchmarks !! g) as [b|] eqn:E; simpl.
  - apply elem_of_list_to_map_2 in E.
    rewrite !elem_of_cons in E. rewrite !elem_of_cons.
    destruct E as [E|[E|[E|[E|[E|E]]]]]; inversion E; subst; tauto.
  - rewrite !elem_of_cons. left. reflexivity.
Qed.

Lemma employee_per_million_pos g :
  (0 < employee_per_million_revenue (benchmark_get g))%Z.
Proof.
  pose proof (benchmark_get_cases g) as H.
  rewrite !elem_of_cons in H.
  destruct H as [H|[H|[H|[H|[H|H]]]]]; [rewrite H; simpl; lia ..|inversion H].
Qed.

(** Truncation toward zero is the floor of a non-negative number and the
    ceiling of a negative one. *)
Lemma py_int_truncates (x : Q) :
  py_int x = if Qle_bool 0 x then Qfloor x else Qceiling x.
Proof.
  destruct x as [n d]. unfold py_int, Qle_bool, Qceiling, Qfloor, Qopp. simpl.
  rewrite Z.mul_1_r, Z.mul_0_l.
  destruct (Z.leb_spec 0 n).
  - apply Z.quot_div_nonneg; lia.
  - rewrite <- (Z.opp_involutive n) at 1. rewrite Z.quot_opp_l by lia.
    f_equal. apply Z.quot_div_nonneg; lia.
Qed.

Lemma py_int_nonpos (x : Q) : (x <= 0)%Q → (py_int x <= 0)%Z.
Proof.
  destruct x as [n d]. unfold Qle, py_int. simpl. intros H.
  assert (Hn : (n <= 0)%Z) by lia.
  rewrite <- (Z.opp_involutive n). rewrite Z.quot_opp_l by lia.
  assert (0 <= - n ÷ Z.pos d)%Z by (apply Z.quot_pos; lia). lia.
Qed.

(** ** Binary64 rounding

    Rounding to the nearest integer fixes the integers and is monotone. *)

Lemma py_round_inject_Z (z : Z) : py_round (inject_Z z) = z.
Proof.
  unfold py_round. rewrite Qfloor_Z.
  assert (Hc : (inject_Z z - inject_Z z ?= 1 # 2)%Q = Lt).
  { apply (proj1 (Qlt_alt _ _)). lra. }
  by rewrite Hc.
Qed.

Lemma py_round_bounds (x : Q) :
  (Qfloor x <= py_round x <= Qfloor x + 1)%Z.
Proof.
  unfold py_round. destruct (x - inject_Z (Qfloor x) ?= 1 # 2)%Q; [destruct (Z.even _)|..]; lia.
Qed.

Lemma py_round_mono (x y : Q) : (x <= y)%Q → (py_round x <= py_round y)%Z.
Proof.
  intros Hxy.
  pose proof (Qfloor_resp_le x y Hxy) as Hf.
  destruct (Z.eq_dec (Qfloor x) (Qfloor y)) as [Heq|Hne].
  - unfold py_round. rewrite Heq.
    destruct (x - inject_Z (Qfloor y) ?= 1 # 2)%Q eqn:Hx;
      destruct (y - inject_Z (Qfloor y) ?= 1 # 2)%Q eqn:Hy;
      try (destruct (Z.even (Qfloor y))); try lia; exfalso;
      repeat match goal with
             | H : (_ ?= _)%Q = Eq |- _ => apply (proj2 (Qeq_alt _ _)) in H
             | H : (_ ?= _)%Q = Lt |- _ => apply (proj2 (Qlt_alt _ _)) in H
             | H : (_ ?= _)%Q = Gt |- _ => apply (proj2 (Qgt_alt _ _)) in H
             end; lra.
  - pose proof (py_round_bounds x). pose proof (py_round_bounds y). lia.
Qed.

(** Powers of two. *)
Lemma pow2_pos (e : Z) : (0 < 2 ^ e)%Q.
Proof. by apply Qpower_0_lt. Qed.

Lemma pow2_split (e k : Z) : (2 ^ e == 2 ^ k * 2 ^ (e - k))%Q.
Proof. rewrite <- Qpower_plus by done. by replace (k + (e - k))%Z with e by lia. Qed.

Lemma pow2_inject_Z (k : Z) : (0 <= k)%Z → (inject_Z (2 ^ k) == 2 ^ k)%Q.
Proof. intros Hk. by rewrite Zpower_Qpower. Qed.

Lemma Qdiv_lt_cross (a b c d : Q) :
  (0 < b)%Q → (0 < d)%Q → (a * d < c * b)%Q → (a / b < c / d)%Q.
Proof.
  intros Hb Hd H. apply Qlt_shift_div_r; [done|].
  assert (E : (c / d * b == c * b / d)%Q) by (field; lra).
  rewrite E.
  by apply Qlt_shift_div_l.
Qed.

(** The binade of a positive rational. *)
Lemma binade_spec (x : Q) :
  (0 < x)%Q → (2 ^ binade x <= x)%Q ∧ (x < 2 ^ (binade x + 1))%Q.
Proof.
  intros Hx. destruct x as [n d].
  assert (Hn : (0 < n)%Z).
  { unfold Qlt in Hx. simpl in Hx. lia. }
  unfold binade. cbn [Qnum Qden].
  set (a := Z.log2 n). set (b := Z.log2 (Z.pos d)).
  destruct (Z.log2_spec n Hn) as [Ha1 Ha2]. fold a in Ha1, Ha2.
  destruct (Z.log2_spec (Z.pos d) eq_refl) as [Hb1 Hb2]. fold b in Hb1, Hb2.
  assert (Ha0 : (0 <= a)%Z) by apply Z.log2_nonneg.
  assert (Hb0 : (0 <= b)%Z) by apply Z.log2_nonneg.
  rewrite Z.pow_succ_r in Ha2, Hb2 by done.
  rewrite Zle_Qle in Ha1, Hb1. rewrite Zlt_Qlt in Ha2, Hb2.
  rewrite inject_Z_mult in Ha2, Hb2.
  rewrite pow2_inject_Z in Ha1, Ha2, Hb1, Hb2 by done.
  pose proof (pow2_pos a) as HA. pose proof (pow2_pos b) as HB.
  assert (Hx' : (n # d == inject_Z n / inject_Z (Z.pos d))%Q) by apply Qmake_Qdiv.
  assert (HN : (0 < inject_Z n)%Q) by lra.
  assert (HD : (0 < inject_Z (Z.pos d))%Q) by lra.
  change (inject_Z 2) with 2%Q in Ha2, Hb2.
  assert (Hlo : (2 ^ (a - b - 1) <= n # d)%Q).
  { rewrite Hx'. replace (a - b - 1)%Z with (a - (b + 1))%Z by lia.
    rewrite Qpower_minus by done. rewrite Qpower_plus by done.
    change (2 ^ 1)%Q with 2%Q.
    apply Qlt_le_weak. apply Qdiv_lt_cross; [lra|lra|].
    apply Qle_lt_trans with (inject_Z n * inject_Z (Z.pos d))%Q.
    - apply Qmult_le_compat_r; lra.
    - apply Qmult_lt_l; lra. }
  assert (Hhi : (n # d < 2 ^ (a - b + 1))%Q).
  { rewrite Hx'. replace (a - b + 1)%Z with (a + 1 - b)%Z by lia.
    rewrite Qpower_minus by done. rewrite Qpower_plus by done.
    change (2 ^ 1)%Q with 2%Q.
    apply Qdiv_lt_cross; [lra|lra|].
    apply Qle_lt_trans with (inject_Z n * inject_Z (Z.pos d))%Q.
    - apply Qmult_le_l; lra.
    - apply Qmult_lt_r; lra. }
  destruct (Qle_bool (2 ^ (a - b)) (n # d)) eqn:Hc.
  - apply Qle_bool_iff in Hc. by split.
  - split; [done|]. replace (a - b - 1 + 1)%Z with (a - b)%Z by lia.
    apply Qnot_le_lt. intros H. apply Qle_bool_iff in H. congruence.
Qed.

(** A larger number is not in a lower binade. *)
Lemma binade_mono (x y : Q) : (0 < x)%Q → (x <= y)%Q → (binade x <= binade y)%Z.
Proof.
  intros Hx Hxy.
  destruct (binade_spec x Hx) as [Hx1 _].
  destruct (binade_spec y) as [_ Hy2]; [lra|].
  assert (H : (2 ^ binade x < 2 ^ (binade y + 1))%Q) by lra.
  apply Qpower_lt_compat_l_inv in H; [lia|lra].
Qed.

(** Rounding to a multiple of a unit [u]. *)
Section round_to_ulp.

Variable u : Q.
Hypothesis Hu : (0 < u)%Q.

Lemma round_to_ulp_lower (x : Q) (l : Z) :
  (inject_Z l * u <= x)%Q → (inject_Z l * u <= inject_Z (py_round (x / u)) * u)%Q.
Proof.
  intros H. apply Qmult_le_compat_r; [|lra].
  rewrite <- Zle_Qle. rewrite <- (py_round_inject_Z l) at 1.
  apply py_round_mono. by apply Qle_shift_div_l.
Qed.

Lemma round_to_ulp_upper (x : Q) (h : Z) :
  (x <= inject_Z h * u)%Q → (inject_Z (py_round (x / u)) * u <= inject_Z h * u)%Q.
Proof.
  intros H. apply Qmult_le_compat_r; [|lra].
  rewrite <- Zle_Qle. rewrite <- (py_round_inject_Z h) at 1.
  apply py_round_mono. by apply Qle_shift_div_r.
Qed.

Lemma round_to_ulp_mono (x y : Q) :
  (x <= y)%Q → (inject_Z (py_round (x / u)) * u <= inject_Z (py_round (y / u)) * u)%Q.
Proof.
  intros H. apply Qmult_le_compat_r; [|lra].
  rewrite <- Zle_Qle. apply py_round_mono.
  apply Qmult_le_compat_r; [done|]. apply Qlt_le_weak. by apply Qinv_lt_0_compat.
Qed.

End round_to_ulp.

(** Rounding keeps a positive number in its binade, ends included. *)
Lemma round_pos_bounds (x : Q) :
  (0 < x)%Q → (2 ^ binade x <= round_pos x)%Q ∧ (round_pos x <= 2 ^ (binade x + 1))%Q.
Proof.
  intros Hx. destruct (binade_spec x Hx) as [H1 H2]. unfold round_pos.
  set (u := (2 ^ (binade x - 52))%Q).
  assert (Hu : (0 < u)%Q) by apply pow2_pos.
  assert (Hlo : (2 ^ binade x == inject_Z (2 ^ 52) * u)%Q).
  { rewrite pow2_inject_Z by done. apply pow2_split. }
  assert (Hhi : (2 ^ (binade x + 1) == inject_Z (2 ^ 53) * u)%Q).
  { rewrite pow2_inject_Z by done. rewrite (pow2_split (binade x + 1) 53).
    by replace (binade x + 1 - 53)%Z with (binade x - 52)%Z by lia. }
  split.
  - rewrite Hlo. apply round_to_ulp_lower; [done|]. by rewrite <- Hlo.
  - rewrite Hhi. apply round_to_ulp_upper; [done|]. rewrite <- Hhi. by apply Qlt_le_weak.
Qed.

Lemma round_pos_mono (x y : Q) :
  (0 < x)%Q → (x <= y)%Q → (round_pos x <= round_pos y)%Q.
Proof.
  intros Hx Hxy.
  assert (Hy : (0 < y)%Q) by lra.
  pose proof (binade_mono x y Hx Hxy) as He.
  destruct (Z.eq_dec (binade x) (binade y)) as [Heq|Hne].
  - unfold round_pos. rewrite Heq. apply round_to_ulp_mono; [apply pow2_pos|done].
  - destruct (round_pos_bounds x Hx) as [_ Hx2].
    destruct (round_pos_bounds y Hy) as [Hy1 _].
    assert (H : (2 ^ (binade x + 1) <= 2 ^ binade y)%Q).
    { apply Qpower_le_compat_l; [lia|lra]. }
    lra.
Qed.

Lemma round_pos_pos (x : Q) : (0 < x)%Q → (0 < round_pos x)%Q.
Proof.
  intros Hx. destruct (round_pos_bounds x Hx) as [H _].
  pose proof (pow2_pos (binade x)). lra.
Qed.

Lemma fl_cases (x : Q) :
  ((x == 0)%Q ∧ fl x = 0%Q)
  ∨ ((0 < x)%Q ∧ fl x = round_pos x)
  ∨ ((x < 0)%Q ∧ fl x = (- round_pos (- x))%Q).
Proof.
  unfold fl. destruct (x ?= 0)%Q eqn:Hc.
  - left. split; [by apply Qeq_alt|done].
  - right. right. split; [by apply Qlt_alt|done].
  - right. left. split; [by apply Qgt_alt|done].
Qed.

(** Rounding keeps the sign. *)
Lemma fl_nonneg (x : Q) : (0 <= x)%Q → (0 <= fl x)%Q.
Proof.
  intros Hx. destruct (fl_cases x) as [[_ ->]|[[H ->]|[H _]]]; [lra| |lra].
  apply Qlt_le_weak. by apply round_pos_pos.
Qed.

Lemma fl_nonpos (x : Q) : (x <= 0)%Q → (fl x <= 0)%Q.
Proof.
  intros Hx. destruct (fl_cases x) as [[_ ->]|[[H _]|[H ->]]]; [lra|lra|].
  assert (0 < round_pos (- x))%Q by (apply round_pos_pos; lra). lra.
Qed.

(** Rounding is monotone. *)
Lemma fl_mono (x y : Q) : (x <= y)%Q → (fl x <= fl y)%Q.
Proof.
  intros Hxy.
  destruct (Qlt_le_dec 0 x) as [Hx|Hx].
  - destruct (fl_cases x) as [[H _]|[[_ ->]|[H _]]]; [lra| |lra].
    destruct (fl_cases y) as [[H _]|[[_ ->]|[H _]]]; [lra| |lra].
    by apply round_pos_mono.
  - destruct (Qlt_le_dec y 0) as [Hy|Hy].
    + destruct (fl_cases x) as [[H _]|[[H _]|[_ ->]]]; [lra|lra|].
      destruct (fl_cases y) as [[H _]|[[H _]|[_ ->]]]; [lra|lra|].
      assert (round_pos (- y) <= round_pos (- x))%Q by (apply round_pos_mono; lra).
      lra.
    + pose proof (fl_nonpos x Hx). pose proof (fl_nonneg y Hy). lra.
Qed.

(** Rounding to the nearest integer moves a number by at most one half. *)
Lemma py_round_error (y : Q) :
  (y - (1 # 2) <= inject_Z (py_round y))%Q ∧ (inject_Z (py_round y) <= y + (1 # 2))%Q.
Proof.
  pose proof (Qfloor_le y) as Hlo. pose proof (Qlt_floor y) as Hhi.
  rewrite inject_Z_plus in Hhi. change (inject_Z 1) with 1%Q in Hhi.
  unfold py_round.
  destruct (y - inject_Z (Qfloor y) ?= 1 # 2)%Q eqn:Hc.
  - apply (proj2 (Qeq_alt _ _)) in Hc.
    destruct (Z.even (Qfloor y)); rewrite ?inject_Z_plus; change (inject_Z 1) with 1%Q; lra.
  - apply (proj2 (Qlt_alt _ _)) in Hc. lra.
  - apply (proj2 (Qgt_alt _ _)) in Hc. rewrite inject_Z_plus. change (inject_Z 1) with 1%Q. lra.
Qed.

(** Rounding moves a positive number by at most half a unit in the last
    place, which is at most [unit_roundoff] times the number. *)
Lemma round_pos_error (x : Q) :
  (0 < x)%Q →
  (x * (1 - unit_roundoff) <= round_pos x)%Q ∧ (round_pos x <= x * (1 + unit_roundoff))%Q.
Proof.
  intros Hx. destruct (binade_spec x Hx) as [He _]. unfold round_pos.
  set (u := (2 ^ (binade x - 52))%Q).
  assert (Hu : (0 < u)%Q) by apply pow2_pos.
  assert (Hhalf : (u * (1 # 2) <= x * unit_roundoff)%Q).
  { assert (E : (u * (1 # 2) == 2 ^ binade x * unit_roundoff)%Q).
    { unfold u, unit_roundoff. rewrite <- Qpower_plus by done.
      replace (binade x + -53)%Z with (binade x - 52 + -1)%Z by lia.
      rewrite Qpower_plus by done. reflexivity. }
    rewrite E. apply Qmult_le_compat_r; [exact He|]. apply Qlt_le_weak, pow2_pos. }
  destruct (py_round_error (x / u)) as [Hlo Hhi].
  assert (Ex : (x == x / u * u)%Q) by (field; lra).
  set (m := inject_Z (py_round (x / u))) in *.
  assert (Hlo' : ((x / u - (1 # 2)) * u <= m * u)%Q) by (apply Qmult_le_compat_r; lra).
  assert (Hhi' : (m * u <= (x / u + (1 # 2)) * u)%Q) by (apply Qmult_le_compat_r; lra).
  set (y := (x / u)%Q) in *.
  split.
  - apply Qle_trans with ((y - (1 # 2)) * u)%Q; [|exact Hlo'].
    rewrite Ex at 1. nra.
  - apply Qle_trans with ((y + (1 # 2)) * u)%Q; [exact Hhi'|].
    rewrite Ex at 1. nra.
Qed.

(** The same for [fl], on a number that is not negative. *)
Lemma fl_error (x : Q) :
  (0 <= x)%Q →
  (x * (1 - unit_roundoff) <= fl x)%Q ∧ (fl x <= x * (1 + unit_roundoff))%Q.
Proof.
  intros Hx. destruct (fl_cases x) as [[H ->]|[[H ->]|[H _]]]; [|by apply round_pos_error|lra].
  rewrite H. split; [rewrite Qmult_0_l|rewrite Qmult_0_l]; apply Qle_refl.
Qed.

Lemma unit_roundoff_bounds : (0 < unit_roundoff)%Q ∧ (unit_roundoff < 1)%Q.
Proof. split; reflexivity. Qed.

(** ** The employee estimate *)

(** C1, counterexample: a revenue of 1 750 000 in the retail group scales
    to 43.75 employees; the code returns 43 where the rounded formula of
    the claim gives 44, so the two do not agree on every input. *)
Lemma estimate_employees_not_rounded :
  estimate_employees 1750000 "商贸零售" = 43%Z ∧
  estimate_employees_rounded 1750000 "商贸零售" = 44%Z ∧
  ¬ (∀ revenue g, estimate_employees revenue g = estimate_employees_rounded revenue g).
Proof.
  assert (H1 : estimate_employees 1750000 "商贸零售" = 43%Z) by (vm_compute; reflexivity).
  assert (H2 : estimate_employees_rounded 1750000 "商贸零售" = 44%Z) by (vm_compute; reflexivity).
  split; [exact H1|]. split; [exact H2|].
  intros H. specialize (H 1750000%Q "商贸零售"). rewrite H1, H2 in H. discriminate H.
Qed.

(** C1, as amended: for every finite revenue and every group name the
    estimate is the maximum of 10 and the float product
    [(revenue / 1_000_000) * employee_per_million], as binary64 arithmetic
    computes it, truncated toward zero (its floor when non-negative, its
    ceiling when negative), not rounded to the nearest integer; it is
    never below 10, and it is exactly 10 when the revenue is zero or
    negative. *)
Theorem estimate_employees_truncates (revenue : Q) (industry_group : string) :
  let product :=
    fmul (fdiv revenue 1000000)
         (inject_Z (employee_per_million_revenue (benchmark_get industry_group))) in
  estimate_employees revenue industry_group
    = Z.max (if Qle_bool 0 product then Qfloor product else Qceiling product) 10
  ∧ (10 <= estimate_employees revenue industry_group)%Z
  ∧ ((revenue <= 0)%Q → estimate_employees revenue industry_group = 10%Z).
Proof.
  intros product. unfold estimate_employees. fold product.
  split; [|split].
  - f_equal. apply py_int_truncates.
  - lia.
  - intros Hr. apply Z.max_r. etransitivity; [apply py_int_nonpos|lia].
    subst product. pose proof (employee_per_million_pos industry_group) as He.
    apply fl_nonpos.
    assert (Hq : (fdiv revenue 1000000 <= 0)%Q).
    { apply fl_nonpos. apply Qle_shift_div_r; [reflexivity|]. lra. }
    assert (Hm : (0 <= inject_Z (employee_per_million_revenue (benchmark_get industry_group)))%Q).
    { change 0%Q with (inject_Z 0). rewrite <- Zle_Qle. lia. }
    rewrite <- (Qmult_0_l (inject_Z (employee_per_million_revenue (benchmark_get industry_group)))).
    by apply Qmult_le_compat_r.
Qed.

(** The amended C1 at a negative revenue. *)
Lemma estimate_employees_truncates_witness :
  (-1750000 <= 0)%Q ∧ estimate_employees (-1750000) "商贸零售" = 10%Z.
Proof.
  split.
  - unfold Qle. simpl. lia.
  - destruct (estimate_employees_truncates (-1750000) "商贸零售") as (_ & _ & Hfloor).
    apply Hfloor. unfold Qle. simpl. lia.
Defined.

(** The truncated number is the float product, not the exact one: a
    revenue of 1 160 000 in the retail group scales to exactly 29, the
    float quotient is just below 1.16 and the float product just below
    29, so the estimate is 28. *)
Lemma estimate_employees_float_product :
  estimate_employees 1160000 "商贸零售" = 28%Z
  ∧ py_int (1160000 / 1000000 * inject_Z 25)%Q = 29%Z
  ∧ (fdiv 1160000 1000000 < 116 # 100)%Q
  ∧ (fmul (fdiv 1160000 1000000) (inject_Z 25) < 29)%Q.
Proof. repeat split. Qed.

(** On text the classifier always answers, with one of the five groups. *)
Lemma classify_str_ok (label : string) :
  ∃ g, classify_industry_group (Str label) = Ok g ∧ g ∈ group_names.
Proof.
  unfold classify_industry_group, group_names.
  repeat match goal with
         | |- context [if ?b then _ else _] => destruct b
         end; eexists; (split; [reflexivity|]); rewrite !elem_of_cons; tauto.
Qed.

(** C8: on a text label the classifier is a function of the label (two
    answers for the same label are equal), it never raises and answers
    with one of the five groups, a label that contains none of the
    keywords is sent to the default group "商贸零售", and so is the empty
    label. *)
Theorem classify_deterministic_default (label : string) :
  (∀ g1 g2, classify_industry_group (Str label) = Ok g1 →
            classify_industry_group (Str label) = Ok g2 → g1 = g2)
  ∧ (∃ g, classify_industry_group (Str label) = Ok g ∧ g ∈ group_names)
  ∧ ((∀ k, k ∈ keywords → str_in k label = false) →
     classify_industry_group (Str label) = Ok default_group)
  ∧ classify_industry_group (Str "") = Ok default_group.
Proof.
  split; [|split; [|split]].
  - intros g1 g2 H1 H2. rewrite H1 in H2. by inversion H2.
  - apply classify_str_ok.
  - intros Hk. unfold classify_industry_group.
    rewrite !Hk by (unfold keywords; rewrite !elem_of_cons; tauto).
    reflexivity.
  - reflexivity.
Qed.

(** C8 at a label (catering) that no rule matches. *)
Lemma classify_deterministic_default_witness :
  (∀ k, k ∈ keywords → str_in k "餐饮服务" = false)
  ∧ classify_industry_group (Str "餐饮服务") = Ok default_group.
Proof.
  assert (H : ∀ k, k ∈ keywords → str_in k "餐饮服务" = false).
  { intros k Hk. unfold keywords in Hk. rewrite !elem_of_cons in Hk.
    destruct Hk as [->|[->|[->|[->|[->|[->|[->|[->|[->|[->|[->|[->|[->|[->|Hk]]]]]]]]]]]]]];
      [reflexivity ..|inversion Hk]. }
  split; [exact H|].
  destruct (classify_deterministic_default "餐饮服务") as (_ & _ & Hdefault & _).
  exact (Hdefault H).
Defined.

(** ** Financial ratios *)

Lemma truthy_Some (x : Q) : truthy (Some x) = true ↔ ¬ (x == 0)%Q.
Proof.
  unfold truthy. rewrite negb_true_iff. split.
  - intros H Hx. apply Qeq_bool_iff in Hx. congruence.
  - intros H. destruct (Qeq_bool x 0) eqn:E; [|reflexivity].
    apply Qeq_bool_iff in E. contradiction.
Qed.

Lemma both_truthy_Some (a b : option Q) (x y : Q) :
  both_truthy a b = Some (x, y) ↔ a = Some x ∧ b = Some y ∧ ¬ (x == 0)%Q ∧ ¬ (y == 0)%Q.
Proof.
  unfold both_truthy.
  destruct a as [x'|], b as [y'|]; try (split; [discriminate|intros (? & ? & _); discriminate]).
  rewrite <- !truthy_Some.
  destruct (truthy (Some x')) eqn:Ex, (truthy (Some y')) eqn:Ey; cbn [andb].
  all: split; [intros H; inversion H; subst; rewrite ?Ex, ?Ey; try tauto; discriminate
              |intros (H1 & H2 & H3 & H4); inversion H1; inversion H2; subst;
               try reflexivity; congruence].
Qed.

Lemma both_truthy_None (a b : option Q) :
  both_truthy a b = None ↔ truthy a = false ∨ truthy b = false.
Proof.
  unfold both_truthy.
  destruct a as [x|], b as [y|]; simpl; try tauto.
  destruct (negb (Qeq_bool x 0)), (negb (Qeq_bool y 0)); simpl; split; try tauto; try discriminate.
  intros [H|H]; discriminate.
Qed.

Lemma py_div_nonzero (a b : Q) : ¬ (b == 0)%Q → py_div a b = Ok (a / b)%Q.
Proof.
  intros H. unfold py_div. destruct (Qeq_bool b 0) eqn:E; [|reflexivity].
  apply Qeq_bool_eq in E. contradiction.
Qed.

Lemma Qgtb_spec (x y : Q) : Qgtb x y = true ↔ (y < x)%Q.
Proof.
  unfold Qgtb. rewrite negb_true_iff. split.
  - intros H. apply Qnot_le_lt. intros Hle. apply Qle_bool_iff in Hle. congruence.
  - intros H. destruct (Qle_bool x y) eqn:E; [|reflexivity].
    apply Qle_bool_iff in E. apply Qlt_not_le in H. contradiction.
Qed.

Lemma Qgtb_nonzero (x : Q) : Qgtb x 0 = true → ¬ (x == 0)%Q.
Proof.
  intros H Hx. apply Qgtb_spec in H. apply Qlt_not_le in H. apply H.
  apply Qle_lteq. right. exact Hx.
Qed.

(** The function never raises: every division it reaches has a nonzero
    divisor.  Its result is the dictionary of the four values. *)
Lemma estimate_financial_ratios_ok (total_assets net_profit revenue : option Q) (g : string) :
  estimate_financial_ratios total_assets net_profit revenue g =
  Ok (<["total_asset_turnover" := turnover_value total_assets revenue]>
      (<["debt_ratio" := debt_ratio (benchmark_get g)]>
       (<["roa" := roa_value total_assets net_profit (benchmark_get g)]>
        (<["roe" := roe_value total_assets net_profit (benchmark_get g)]> ∅)))).
Proof.
  unfold estimate_financial_ratios, roe_value, roa_value, turnover_value.
  set (b := benchmark_get g).
  destruct (both_truthy net_profit total_assets) as [[n t]|] eqn:Ent.
  - pose proof Ent as Hnt. apply both_truthy_Some in Hnt. destruct Hnt as (_ & _ & Hn & Ht).
    assert (Hroe :
      (if Qgtb (t * (1 - debt_ratio b)) 0
       then py_div n (t * (1 - debt_ratio b)) else Ok (roe b))
      = Ok (if Qgtb (t * (1 - debt_ratio b)) 0
            then (n / (t * (1 - debt_ratio b)))%Q else roe b)).
    { destruct (Qgtb (t * (1 - debt_ratio b)) 0) eqn:Eg; [|reflexivity].
      apply py_div_nonzero. by apply Qgtb_nonzero. }
    rewrite Hroe. rewrite (py_div_nonzero n t Ht). simpl.
    destruct (both_truthy revenue total_assets) as [[r t']|] eqn:Ert; [|reflexivity].
    apply both_truthy_Some in Ert. destruct Ert as (_ & _ & _ & Ht').
    rewrite (py_div_nonzero r t' Ht'). reflexivity.
  - simpl.
    destruct (both_truthy revenue total_assets) as [[r t']|] eqn:Ert; [|reflexivity].
    apply both_truthy_Some in Ert. destruct Ert as (_ & _ & _ & Ht').
    rewrite (py_div_nonzero r t' Ht'). reflexivity.
Qed.

Lemma estimate_financial_ratios_lookup
    (total_assets net_profit revenue : option Q) (g : string) :
  ∃ ratios : gmap string Q,
    estimate_financial_ratios total_assets net_profit revenue g = Ok ratios
    ∧ ratios !! "roe" = Some (roe_value total_assets net_profit (benchmark_get g))
    ∧ ratios !! "roa" = Some (roa_value total_assets net_profit (benchmark_get g))
    ∧ ratios !! "debt_ratio" = Some (debt_ratio (benchmark_get g))
    ∧ ratios !! "total_asset_turnover" = Some (turnover_value total_assets revenue).
Proof.
  eexists. split; [apply estimate_financial_ratios_ok|].
  repeat split.
Qed.

Lemma both_truthy_intro (x y : Q) :
  ¬ (x == 0)%Q → ¬ (y == 0)%Q → both_truthy (Some x) (Some y) = Some (x, y).
Proof. intros Hx Hy. by apply both_truthy_Some. Qed.

(** C7: the call returns a dictionary whose return-on-equity is
    [net_profit / (total_assets * (1 - group.debt_ratio))] when both inputs
    are present and nonzero and that denominator is positive, the group's
    [roe] when both are present and the denominator is zero or negative,
    and the group's [roe] when either input is absent. *)
Theorem return_on_equity_cases
    (total_assets net_profit revenue : option Q) (industry_group : string) :
  let group := benchmark_get industry_group in
  ∃ ratios : gmap string Q,
    estimate_financial_ratios total_assets net_profit revenue industry_group = Ok ratios
    ∧ (∀ n t, net_profit = Some n → total_assets = Some t →
         ¬ (n == 0)%Q → ¬ (t == 0)%Q → (0 < t * (1 - debt_ratio group))%Q →
         ratios !! "roe" = Some (n / (t * (1 - debt_ratio group)))%Q)
    ∧ (∀ n t, net_profit = Some n → total_assets = Some t →
         (t * (1 - debt_ratio group) <= 0)%Q →
         ratios !! "roe" = Some (roe group))
    ∧ (net_profit = None ∨ total_assets = None → ratios !! "roe" = Some (roe group)).
Proof.
  intros group.
  destruct (estimate_financial_ratios_lookup total_assets net_profit revenue industry_group)
    as (ratios & Hok & Hroe & _).
  exists ratios. split; [exact Hok|]. fold group in Hroe. rewrite Hroe. unfold roe_value.
  split; [|split].
  - intros n t -> -> Hn Ht Hpos. rewrite (both_truthy_intro n t Hn Ht).
    apply Qgtb_spec in Hpos. by rewrite Hpos.
  - intros n t -> -> Hle.
    destruct (both_truthy (Some n) (Some t)) as [[n' t']|] eqn:E; [|reflexivity].
    apply both_truthy_Some in E. destruct E as (En & Et & _). inversion En; inversion Et; subst.
    destruct (Qgtb (t' * (1 - debt_ratio group)) 0) eqn:Eg; [|reflexivity].
    apply Qgtb_spec in Eg. apply Qlt_not_le in Eg. contradiction.
  - intros [-> | ->]; [reflexivity|]. by destruct net_profit.
Qed.

(** C7 at total assets 100 and net profit 10 in the manufacturing group. *)
Lemma return_on_equity_cases_witness :
  ∃ ratios : gmap string Q,
    estimate_financial_ratios (Some 100%Q) (Some 10%Q) None "制造业" = Ok ratios
    ∧ ratios !! "roe" = Some (10 / (100 * (1 - debt_ratio (benchmark_get "制造业"))))%Q.
Proof.
  destruct (return_on_equity_cases (Some 100%Q) (Some 10%Q) None "制造业")
    as (ratios & Hok & Hcomputed & _).
  exists ratios. split; [exact Hok|].
  apply (Hcomputed 10%Q 100%Q); [reflexivity | reflexivity | | | ].
  - unfold Qeq. simpl. lia.
  - unfold Qeq. simpl. lia.
  - vm_compute. reflexivity.
Defined.

(** C2, counterexample: with total assets 100 and a net profit of exactly
    zero, both present, the returned return-on-assets is the manufacturing
    benchmark 0.10 and not [0 / 100]. *)
Lemma return_on_assets_zero_profit :
  ∃ ratios : gmap string Q,
    estimate_financial_ratios (Some 100%Q) (Some 0%Q) None "制造业" = Ok ratios
    ∧ ratios !! "roa" = Some 0.10%Q
    ∧ ¬ (0.10 == 0 / 100)%Q.
Proof.
  eexists. split; [vm_compute; reflexivity|]. split; [reflexivity|].
  unfold Qeq. simpl. lia.
Qed.

(** C2, as amended: the returned return-on-assets is
    [net_profit / total_assets] when both are present and nonzero; it is
    the group's [roa] when either is absent, and also when either is
    present but zero. *)
Theorem return_on_assets_cases
    (total_assets net_profit revenue : option Q) (industry_group : string) :
  let group := benchmark_get industry_group in
  ∃ ratios : gmap string Q,
    estimate_financial_ratios total_assets net_profit revenue industry_group = Ok ratios
    ∧ (∀ n t, net_profit = Some n → total_assets = Some t →
         ¬ (n == 0)%Q → ¬ (t == 0)%Q → ratios !! "roa" = Some (n / t)%Q)
    ∧ (∀ n, net_profit = Some n → (n == 0)%Q → ratios !! "roa" = Some (roa group))
    ∧ (∀ t, total_assets = Some t → (t == 0)%Q → ratios !! "roa" = Some (roa group))
    ∧ (net_profit = None ∨ total_assets = None → ratios !! "roa" = Some (roa group)).
Proof.
  intros group.
  destruct (estimate_financial_ratios_lookup total_assets net_profit revenue industry_group)
    as (ratios & Hok & _ & Hroa & _).
  exists ratios. split; [exact Hok|]. fold group in Hroa. rewrite Hroa. unfold roa_value.
  split; [|split; [|split]].
  - intros n t -> -> Hn Ht. by rewrite (both_truthy_intro n t Hn Ht).
  - intros n -> Hn.
    destruct (both_truthy (Some n) total_assets) as [[n' t']|] eqn:E; [|reflexivity].
    apply both_truthy_Some in E. destruct E as (En & _ & Hn' & _). inversion En; subst.
    contradiction.
  - intros t -> Ht.
    destruct (both_truthy net_profit (Some t)) as [[n' t']|] eqn:E; [|reflexivity].
    apply both_truthy_Some in E. destruct E as (_ & Et & _ & Ht'). inversion Et; subst.
    contradiction.
  - intros [-> | ->]; [reflexivity|]. by destruct net_profit.
Qed.

(** The amended C2 at total assets 100 and net profit 10. *)
Lemma return_on_assets_cases_witness :
  ∃ ratios : gmap string Q,
    estimate_financial_ratios (Some 100%Q) (Some 10%Q) None "制造业" = Ok ratios
    ∧ ratios !! "roa" = Some (10 / 100)%Q.
Proof.
  destruct (return_on_assets_cases (Some 100%Q) (Some 10%Q) None "制造业")
    as (ratios & Hok & Hcomputed & _).
  exists ratios. split; [exact Hok|].
  apply (Hcomputed 10%Q 100%Q); [reflexivity | reflexivity | | ].
  - unfold Qeq. simpl. lia.
  - unfold Qeq. simpl. lia.
Defined.

(** C10, counterexample: no input whose total assets are present and zero
    makes the function raise [ZeroDivisionError]; the claimed input does
    not exist. *)
Lemma zero_assets_never_divide :
  ¬ (∃ (t : Q) (net_profit revenue : option Q) (industry_group : string),
       (t == 0)%Q ∧ (is_Some net_profit ∨ is_Some revenue)
       ∧ estimate_financial_ratios (Some t) net_profit revenue industry_group
         = Raise ZeroDivisionError).
Proof.
  intros (t & np & rev & g & _ & _ & H).
  rewrite estimate_financial_ratios_ok in H. discriminate H.
Qed.

(** C10, as amended: the guards of the divisions test truthiness, so total
    assets of zero are treated like absent ones: the function returns
    normally on every input, and with total assets of zero the
    return-on-assets is the group's [roa], the asset turnover is 1 and the
    return-on-equity is the group's [roe]; no division by [total_assets]
    is reached. *)
Theorem zero_assets_fall_back
    (total_assets net_profit revenue : option Q) (industry_group : string) :
  let group := benchmark_get industry_group in
  ∃ ratios : gmap string Q,
    estimate_financial_ratios total_assets net_profit revenue industry_group = Ok ratios
    ∧ (∀ t, total_assets = Some t → (t == 0)%Q →
         ratios !! "roa" = Some (roa group)
         ∧ ratios !! "total_asset_turnover" = Some 1%Q
         ∧ ratios !! "roe" = Some (roe group)).
Proof.
  intros group.
  destruct (estimate_financial_ratios_lookup total_assets net_profit revenue industry_group)
    as (ratios & Hok & Hroe & Hroa & _ & Hturn).
  exists ratios. split; [exact Hok|]. intros t -> Ht.
  fold group in Hroe, Hroa. rewrite Hroe, Hroa, Hturn.
  unfold roe_value, roa_value, turnover_value.
  assert (Hnone : ∀ a, both_truthy a (Some t) = None).
  { intros a. apply both_truthy_None. right.
    destruct (truthy (Some t)) eqn:E; [|reflexivity]. apply truthy_Some in E. contradiction. }
  by rewrite !Hnone.
Qed.

(** The amended C10 at total assets 0 with profit and revenue present. *)
Lemma zero_assets_fall_back_witness :
  ∃ ratios : gmap string Q,
    estimate_financial_ratios (Some 0%Q) (Some 10%Q) (Some 5%Q) "制造业" = Ok ratios
    ∧ ratios !! "roa" = Some (roa (benchmark_get "制造业"))
    ∧ ratios !! "total_asset_turnover" = Some 1%Q
    ∧ ratios !! "roe" = Some (roe (benchmark_get "制造业")).
Proof.
  destruct (zero_assets_fall_back (Some 0%Q) (Some 10%Q) (Some 5%Q) "制造业")
    as (ratios & Hok & Hzero).
  exists ratios. split; [exact Hok|].
  apply (Hzero 0%Q); reflexivity.
Defined.

(** ** The report path *)

Lemma length_append (s1 s2 : string) :
  String.length (s1 +:+ s2) = String.length s1 + String.length s2.
Proof. induction s1 as [|c s1 IH]; simpl; [reflexivity|by rewrite IH]. Qed.

(** C9, the code at two output paths.  An output path without ".csv" is
    returned unchanged, so the report path is the output path itself and
    is not the path with its extension replaced; and every ".csv" in the
    path is replaced, also one inside a directory name. *)
Theorem report_file_replaces_every_occurrence :
  report_file "out.txt" = "out.txt"
  ∧ report_file "data.csv.d/out.csv"
    = "data_enhancement_report.md.d/out_enhancement_report.md"
  ∧ ¬ (∃ stem ext, "out.txt" = stem +:+ ext
                   ∧ report_file "out.txt" = stem +:+ "_enhancement_report.md").
Proof.
  split; [reflexivity|]. split; [reflexivity|].
  intros (stem & ext & _ & H).
  assert (Hlen : String.length (report_file "out.txt")
                 = String.length (stem +:+ "_enhancement_report.md")) by (by rewrite H).
  rewrite length_append in Hlen.
  change (String.length (report_file "out.txt")) with 7 in Hlen.
  change (String.length "_enhancement_report.md") with 22 in Hlen. lia.
Qed.

Lemma append_String (c : ascii) (s t : string) :
  String c s +:+ t = String c (s +:+ t).
Proof. reflexivity. Qed.

Lemma append_empty (t : string) : "" +:+ t = t.
Proof. reflexivity. Qed.

(** A match of ".csv" cannot straddle the end of a stem and the
    extension appended to it. *)
Lemma prefix_csv_app (stem : string) :
  stem ≠ "" → String.prefix ".csv" stem = false →
  String.prefix ".csv" (stem +:+ ".csv") = false.
Proof.
  intros Hne Hp.
  destruct stem as [|c1 [|c2 [|c3 [|c4 rest]]]]; [done|..];
    rewrite ?append_String, ?append_empty;
    cbn [String.prefix] in *;
    repeat match goal with
           | |- context [ascii_dec ?a ?b] => destruct (ascii_dec a b); subst; try done
           | H : context [ascii_dec ?a ?b] |- _ => destruct (ascii_dec a b); subst; try done
           end.
  destruct rest; discriminate Hp.
Qed.

Lemma str_replace_csv_stem (stem : string) :
  str_in ".csv" stem = false →
  str_replace ".csv" "_enhancement_report.md" (stem +:+ ".csv")
  = stem +:+ "_enhancement_report.md".
Proof.
  unfold str_replace.
  induction stem as [|c stem IH]; intros Hin; [reflexivity|].
  cbn [str_in] in Hin. apply orb_false_iff in Hin. destruct Hin as [Hp Hin].
  pose proof (prefix_csv_app (String c stem) ltac:(done) Hp) as Hp'.
  rewrite !append_String in *. cbn [str_replace_from]. rewrite Hp'.
  f_equal. by apply IH.
Qed.

(** Where the output path is a stem free of ".csv" followed by the
    extension ".csv", the report path is the stem followed by the report
    suffix. *)
Theorem report_file_csv_extension (stem : string) :
  str_in ".csv" stem = false →
  report_file (stem +:+ ".csv") = stem +:+ "_enhancement_report.md".
Proof. apply str_replace_csv_stem. Qed.

Lemma report_file_csv_extension_witness :
  str_in ".csv" "results/enhanced" = false
  ∧ report_file "results/enhanced.csv" = "results/enhanced_enhancement_report.md".
Proof.
  split; [reflexivity|].
  exact (report_file_csv_extension "results/enhanced" eq_refl).
Defined.

(** ** The fill pass *)

(** How one cell assignment changes what the rows and columns read. *)
Section loc_set.
Context (df : DataFrame) (idx : nat) (col : string) (v : cell).

Lemma nrows_loc_set : nrows (loc_set df idx col v) = nrows df.
Proof. unfold loc_set. by destruct (data df !! col). Qed.

Lemma data_loc_set_ne c :
  c ≠ col → data (loc_set df idx col v) !! c = data df !! c.
Proof.
  intros Hc. unfold loc_set.
  destruct (data df !! col); simpl; by rewrite lookup_insert_ne.
Qed.

Lemma row_get_loc_set_ne i c :
  c ≠ col → row_get (loc_set df idx col v) i c = row_get df i c.
Proof. intros Hc. unfold row_get. by rewrite data_loc_set_ne. Qed.

Lemma columns_loc_set_ne c :
  c ≠ col → c ∈ columns (loc_set df idx col v) ↔ c ∈ columns df.
Proof.
  intros Hc. unfold loc_set. destruct (data df !! col); simpl; [done|].
  rewrite elem_of_app, list_elem_of_singleton. tauto.
Qed.

Lemma columns_loc_set_mono c :
  c ∈ columns df → c ∈ columns (loc_set df idx col v).
Proof.
  intros Hc. unfold loc_set. destruct (data df !! col); simpl; [done|].
  apply elem_of_app. by left.
Qed.

Lemma data_loc_set_is_Some c :
  is_Some (data df !! c) → is_Some (data (loc_set df idx col v) !! c).
Proof.
  intros Hc. destruct (decide (c = col)) as [->|Hne].
  - unfold loc_set. destruct (data df !! col); simpl; rewrite lookup_insert_eq; eauto.
  - by rewrite data_loc_set_ne.
Qed.

Lemma sized_loc_set : sized (nrows df) df → sized (nrows df) (loc_set df idx col v).
Proof.
  intros Hs c l. destruct (decide (c = col)) as [->|Hne].
  - unfold loc_set. destruct (data df !! col) as [l0|] eqn:E; simpl;
      rewrite lookup_insert_eq; intros [= <-]; rewrite length_insert.
    + by apply (Hs col).
    + apply length_replicate.
  - rewrite data_loc_set_ne by done. apply Hs.
Qed.

Lemma dom_loc_set :
  dom (data df) = list_to_set (columns df) →
  dom (data (loc_set df idx col v)) = list_to_set (columns (loc_set df idx col v)).
Proof.
  intros Hd. unfold loc_set. destruct (data df !! col) as [l0|] eqn:E; simpl.
  - rewrite dom_insert_lookup_L by eauto. exact Hd.
  - rewrite dom_insert_L, list_to_set_app_L, Hd. simpl.
    rewrite (right_id_L ∅ (∪)). apply (comm_L (∪)).
Qed.

(** The assigned cell reads back, provided the row exists. *)
Lemma row_get_loc_set_eq :
  sized (nrows df) df → idx < nrows df →
  row_get (loc_set df idx col v) idx col = Some v.
Proof.
  intros Hs Hi. unfold row_get, loc_set.
  destruct (data df !! col) as [l0|] eqn:E; simpl; rewrite lookup_insert_eq; simpl;
    apply list_lookup_insert_eq.
  - by rewrite (Hs col l0 E).
  - by rewrite length_replicate.
Qed.

(** Other rows of the assigned column keep a value they had ... *)
Lemma row_get_loc_set_kept i :
  i ≠ idx → isna (row_get df i col) = false →
  row_get (loc_set df idx col v) i col = row_get df i col.
Proof.
  intros Hi Hna. unfold row_get, loc_set in *.
  destruct (data df !! col) as [l0|] eqn:E; simpl in *; [|discriminate].
  rewrite lookup_insert_eq. simpl. by apply list_lookup_insert_ne.
Qed.

(** ... and stay missing where they were missing (a column created by the
    assignment is missing everywhere else). *)
Lemma row_get_loc_set_missing i :
  i ≠ idx → isna (row_get df i col) = true →
  isna (row_get (loc_set df idx col v) i col) = true.
Proof.
  intros Hi Hna. unfold row_get, loc_set in *.
  destruct (data df !! col) as [l0|] eqn:E; simpl in *; rewrite lookup_insert_eq; simpl.
  - by rewrite list_lookup_insert_ne.
  - rewrite list_lookup_insert_ne by done.
    destruct (replicate (nrows df) NaN !! i) as [c|] eqn:Er; [|done].
    apply lookup_replicate in Er. by destruct Er as [-> _].
Qed.
End loc_set.

Lemma wf_frame_spec (df : DataFrame) :
  wf_frame df = true →
  dom (data df) = list_to_set (columns df) ∧ sized (nrows df) df.
Proof.
  unfold wf_frame. rewrite andb_true_iff, bool_decide_eq_true, forallb_forall.
  intros [Hd Hl]. split; [exact Hd|].
  intros c l Hc.
  assert (Hin : c ∈ columns df).
  { assert (c ∈ dom (data df)) as Hc' by (apply elem_of_dom; eauto).
    rewrite Hd in Hc'. by apply elem_of_list_to_set in Hc'. }
  apply list_elem_of_In in Hin. specialize (Hl c Hin). rewrite Hc in Hl.
  by apply Nat.eqb_eq in Hl.
Qed.

Lemma frame_inv_init (snap : DataFrame) : wf_frame snap = true → frame_inv snap snap.
Proof.
  intros Hwf. apply wf_frame_spec in Hwf. destruct Hwf as [Hd Hs].
  by constructor.
Qed.

Lemma col_inv_init snap col est : col_inv snap col est [] snap.
Proof.
  constructor; [done| |done].
  intros i Hi. by apply elem_of_nil in Hi.
Qed.

Lemma frame_inv_loc_set snap df idx col v :
  col = "employee_count" ∨ col = "net_profit" →
  frame_inv snap df → frame_inv snap (loc_set df idx col v).
Proof.
  intros Hcol [Hn Hs Hdata Hcols Hmono Hst Hdom].
  constructor.
  - by rewrite nrows_loc_set.
  - rewrite <- Hn. apply sized_loc_set. by rewrite Hn.
  - intros c H1 H2. rewrite data_loc_set_ne by (destruct Hcol; congruence). by apply Hdata.
  - intros c H1 H2. rewrite columns_loc_set_ne by (destruct Hcol; congruence). by apply Hcols.
  - intros c Hc. apply columns_loc_set_mono. by apply Hmono.
  - intros c Hc. apply data_loc_set_is_Some. by apply Hst.
  - by apply dom_loc_set.
Qed.

Lemma col_inv_loc_set_ne snap col est done df idx col' v :
  col' ≠ col → col_inv snap col est done df →
  col_inv snap col est done (loc_set df idx col' v).
Proof.
  intros Hne [Hk Hf Hm].
  constructor; intros i; rewrite row_get_loc_set_ne by done; auto.
Qed.

Lemma col_inv_visit_skip snap col est done df idx :
  needs_fill snap idx col = false →
  col_inv snap col est done df → col_inv snap col est (idx :: done) df.
Proof.
  intros Hno [Hk Hf Hm]. constructor; [exact Hk | |].
  - intros i Hi Hfill. apply elem_of_cons in Hi. destruct Hi as [->|Hi]; [congruence|auto].
  - intros i [Hi|Hi] Hna; [|auto].
    apply Hm; [|done]. left. intros Hin. apply Hi. apply elem_of_cons. by right.
Qed.

Lemma needs_fill_missing snap idx col :
  needs_fill snap idx col = true → isna (row_get snap idx col) = true.
Proof. unfold needs_fill. by intros [? _]%andb_true_iff. Qed.

Lemma col_inv_visit_fill snap col est done df idx g r :
  nrows df = nrows snap → sized (nrows snap) df → idx < nrows snap →
  needs_fill snap idx col = true →
  classify_industry_group (label_of snap idx) = Ok g →
  row_get snap idx "revenue" = Some (Num r) →
  (∀ r g, isna (Some (est r g)) = false) →
  col_inv snap col est done df →
  col_inv snap col est (idx :: done) (loc_set df idx col (est r g)).
Proof.
  intros Hn Hs Hidx Hfill Hg Hr Hest [Hk Hf Hm].
  assert (Hsame : row_get (loc_set df idx col (est r g)) idx col = Some (est r g)).
  { apply row_get_loc_set_eq; rewrite Hn; done. }
  constructor.
  - intros i Hna. destruct (decide (i = idx)) as [->|Hne].
    + apply needs_fill_missing in Hfill. congruence.
    + rewrite row_get_loc_set_kept; [by apply Hk|done|]. by rewrite Hk.
  - intros i Hi Hfi. destruct (decide (i = idx)) as [->|Hne].
    + exists g, r. by rewrite Hsame.
    + apply elem_of_cons in Hi. destruct Hi as [->|Hi]; [done|].
      destruct (Hf i Hi Hfi) as (g' & r' & Hg' & Hr' & Hv).
      exists g', r'. split; [done|]. split; [done|].
      rewrite row_get_loc_set_kept; [done|done|]. by rewrite Hv.
  - intros i Hi Hna. destruct (decide (i = idx)) as [->|Hne].
    + destruct Hi as [Hi|Hi]; [|congruence]. exfalso. apply Hi. apply elem_of_cons. by left.
    + apply row_get_loc_set_missing; [done|]. apply Hm; [|done].
      destruct Hi as [Hi|Hi]; [|by right]. left. intros Hin. apply Hi.
      apply elem_of_cons. by right.
Qed.

(** The guard that lets a fill branch run also lets [row['revenue']]
    succeed exactly on a numeric cell. *)
Lemma row_getitem_float_Ok snap idx r :
  row_getitem_float snap idx "revenue" = Ok r ↔ row_get snap idx "revenue" = Some (Num r).
Proof.
  unfold row_getitem_float.
  destruct (row_get snap idx "revenue") as [[|x|s]|]; simpl; split; intros H;
    by inversion H.
Qed.

(** A successful iteration classified the row and ran each branch exactly
    when its guard held, on a numeric revenue. *)
Lemma enhance_row_inv snap idx df log df' log' :
  enhance_row snap idx (df, log) = Ok (df', log') →
  ∃ g, classify_industry_group (label_of snap idx) = Ok g ∧
  ∃ df1 log1,
    (if needs_fill snap idx "employee_count"
     then ∃ r, row_get snap idx "revenue" = Some (Num r)
               ∧ df1 = loc_set df idx "employee_count" (employees_cell r g)
               ∧ log1 = note_enhanced "employee_count" "基于营收和行业标杆估算" log
     else df1 = df ∧ log1 = log)
    ∧
    (if needs_fill snap idx "net_profit"
     then ∃ r, row_get snap idx "revenue" = Some (Num r)
               ∧ df' = loc_set df1 idx "net_profit" (profit_cell r g)
               ∧ log' = note_enhanced "net_profit" "基于营收和行业利润率估算" log1
     else df' = df1 ∧ log' = log1).
Proof.
  unfold enhance_row. fold (label_of snap idx).
  fold (needs_fill snap idx "employee_count"). fold (needs_fill snap idx "net_profit").
  destruct (classify_industry_group (label_of snap idx)) as [g|e]; simpl; [|discriminate].
  intros H. exists g. split; [reflexivity|].
  destruct (needs_fill snap idx "employee_count").
  - destruct (row_getitem_float snap idx "revenue") as [r|e] eqn:Er; simpl in H; [|discriminate].
    apply row_getitem_float_Ok in Er.
    eexists _, _. split; [exists r; eauto|].
    destruct (needs_fill snap idx "net_profit"); simpl in H.
    + exists r. inversion H; subst. eauto.
    + inversion H; subst. eauto.
  - simpl in H. eexists _, _. split; [eauto|].
    destruct (needs_fill snap idx "net_profit"); simpl in H.
    + destruct (row_getitem_float snap idx "revenue") as [r|e] eqn:Er; simpl in H; [|discriminate].
      apply row_getitem_float_Ok in Er. exists r. inversion H; subst. eauto.
    + inversion H; subst. eauto.
Qed.

Lemma enhance_row_step snap idx done df log df' log' :
  idx < nrows snap →
  enhance_row snap idx (df, log) = Ok (df', log') →
  frame_inv snap df →
  col_inv snap "employee_count" employees_cell done df →
  col_inv snap "net_profit" profit_cell done df →
  frame_inv snap df'
  ∧ col_inv snap "employee_count" employees_cell (idx :: done) df'
  ∧ col_inv snap "net_profit" profit_cell (idx :: done) df'
  ∧ is_ok (classify_industry_group (label_of snap idx)) = true.
Proof.
  intros Hidx Hrow Hfi He Hp.
  apply enhance_row_inv in Hrow.
  destruct Hrow as (g & Hg & df1 & log1 & H1 & H2).
  assert (Hmid : frame_inv snap df1
                 ∧ col_inv snap "employee_count" employees_cell (idx :: done) df1
                 ∧ col_inv snap "net_profit" profit_cell done df1).
  { destruct (needs_fill snap idx "employee_count") eqn:Ef.
    - destruct H1 as (r & Hr & -> & _). split; [|split].
      + apply frame_inv_loc_set; [by left|done].
      + apply col_inv_visit_fill; try done; by destruct Hfi.
      + by apply col_inv_loc_set_ne.
    - destruct H1 as [-> _]. split; [done|]. split; [|done].
      by apply col_inv_visit_skip. }
  destruct Hmid as (Hfi1 & He1 & Hp1).
  rewrite Hg. split; [|split; [|split; [|reflexivity]]].
  - destruct (needs_fill snap idx "net_profit").
    + destruct H2 as (r & Hr & -> & _). apply frame_inv_loc_set; [by right|done].
    + by destruct H2 as [-> _].
  - destruct (needs_fill snap idx "net_profit").
    + destruct H2 as (r & Hr & -> & _). by apply col_inv_loc_set_ne.
    + by destruct H2 as [-> _].
  - destruct (needs_fill snap idx "net_profit") eqn:Ef.
    + destruct H2 as (r & Hr & -> & _).
      apply col_inv_visit_fill; try done; by destruct Hfi1.
    + destruct H2 as [-> _]. by apply col_inv_visit_skip.
Qed.

Lemma enhance_rows_cons snap idx rest st :
  enhance_rows snap (idx :: rest) st
  = enhance_row snap idx st ≫= enhance_rows snap rest.
Proof. reflexivity. Qed.

(** The invariants hold along the whole loop. *)
Lemma enhance_rows_inv snap idxs : ∀ done df log df' log',
  (∀ i, i ∈ idxs → i < nrows snap) →
  enhance_rows snap idxs (df, log) = Ok (df', log') →
  frame_inv snap df →
  col_inv snap "employee_count" employees_cell done df →
  col_inv snap "net_profit" profit_cell done df →
  frame_inv snap df'
  ∧ col_inv snap "employee_count" employees_cell (rev idxs ++ done) df'
  ∧ col_inv snap "net_profit" profit_cell (rev idxs ++ done) df'
  ∧ (∀ i, i ∈ idxs → is_ok (classify_industry_group (label_of snap i)) = true).
Proof.
  induction idxs as [|idx idxs IH]; intros done df log df' log' Hlt Hrun Hfi He Hp.
  - simpl in Hrun. inversion Hrun; subst. simpl.
    split; [done|]. split; [done|]. split; [done|].
    intros i Hi. by apply elem_of_nil in Hi.
  - rewrite enhance_rows_cons in Hrun.
    destruct (enhance_row snap idx (df, log)) as [[df1 log1]|e] eqn:Erow; simpl in Hrun;
      [|discriminate].
    apply (enhance_row_step snap idx done) in Erow; try done;
      [|apply Hlt; apply elem_of_cons; by left].
    destruct Erow as (Hfi1 & He1 & Hp1 & Hok).
    apply (IH (idx :: done)) in Hrun; try done;
      [|intros i Hi; apply Hlt; apply elem_of_cons; by right].
    destruct Hrun as (Hfi' & He' & Hp' & Hoks).
    simpl. rewrite <- !app_assoc. simpl.
    split; [done|]. split; [done|]. split; [done|].
    intros i Hi. apply elem_of_cons in Hi. destruct Hi as [->|Hi]; auto.
Qed.

Lemma original_missing_note_enhanced field method log :
  original_missing (note_enhanced field method log) = original_missing log.
Proof. unfold note_enhanced. by destruct (bool_decide _). Qed.

Lemma enhance_rows_original_missing snap idxs : ∀ df log df' log',
  enhance_rows snap idxs (df, log) = Ok (df', log') →
  original_missing log' = original_missing log.
Proof.
  induction idxs as [|idx idxs IH]; intros df log df' log' Hrun.
  - simpl in Hrun. by inversion Hrun.
  - rewrite enhance_rows_cons in Hrun.
    destruct (enhance_row snap idx (df, log)) as [[df1 log1]|e] eqn:Erow; simpl in Hrun;
      [|discriminate].
    rewrite (IH _ _ _ _ Hrun).
    apply enhance_row_inv in Erow.
    destruct Erow as (g & _ & df0 & log0 & H1 & H2).
    destruct (needs_fill snap idx "net_profit");
      [destruct H2 as (? & _ & _ & ->)|destruct H2 as (_ & ->)];
    (destruct (needs_fill snap idx "employee_count");
      [destruct H1 as (? & _ & _ & ->)|destruct H1 as (_ & ->)]);
    by rewrite ?original_missing_note_enhanced.
Qed.

Lemma enhance_csv_data_inv df out log :
  enhance_csv_data df = Ok (out, log) →
  ∃ log1,
    enhance_rows df (seq 0 (nrows df)) (df, mkLog (missing_by_column df) [] ∅ ∅ 0 0 0)
      = Ok (out, log1)
    ∧ log = mkLog (missing_by_column df) (enhanced_fields log1) (enhancement_methods log1)
                  (missing_by_column out) (nrows out) (length (enhanced_fields log1))
                  (Z.of_nat (size (missing_by_column df))
                   - Z.of_nat (size (missing_by_column out))).
Proof.
  unfold enhance_csv_data.
  destruct (enhance_rows df (seq 0 (nrows df)) _) as [[df1 log1]|e] eqn:Erun; simpl;
    [|discriminate].
  intros H. inversion H; subst. exists log1. split; [reflexivity|].
  by rewrite (enhance_rows_original_missing _ _ _ _ _ _ Erun).
Qed.

Lemma elem_of_rev_seq (n i : nat) : i ∈ (rev (seq 0 n) ++ [])%list ↔ i < n.
Proof.
  rewrite app_nil_r, list_elem_of_In, <- in_rev, in_seq. lia.
Qed.

(** Everything the pass guarantees about the frame it returns. *)
Lemma enhance_csv_data_frame df out log :
  wf_frame df = true → enhance_csv_data df = Ok (out, log) →
  frame_inv df out
  ∧ col_inv df "employee_count" employees_cell (rev (seq 0 (nrows df)) ++ [])%list out
  ∧ col_inv df "net_profit" profit_cell (rev (seq 0 (nrows df)) ++ [])%list out
  ∧ (∀ i, i < nrows df → is_ok (classify_industry_group (label_of df i)) = true).
Proof.
  intros Hwf Hrun. apply enhance_csv_data_inv in Hrun. destruct Hrun as (log1 & Hrun & _).
  apply (enhance_rows_inv df _ []) in Hrun.
  - destruct Hrun as (H1 & H2 & H3 & H4).
    split; [done|]. split; [done|]. split; [done|].
    intros i Hi. apply H4. apply list_elem_of_In, in_seq. lia.
  - intros i Hi. apply list_elem_of_In, in_seq in Hi. lia.
  - by apply frame_inv_init.
  - apply col_inv_init.
  - apply col_inv_init.
Qed.

(** An iteration whose guards are both false changes nothing. *)
Lemma enhance_row_noop snap idx st :
  is_ok (classify_industry_group (label_of snap idx)) = true →
  needs_fill snap idx "employee_count" = false →
  needs_fill snap idx "net_profit" = false →
  enhance_row snap idx st = Ok st.
Proof.
  intros Hok He Hp. destruct st as [df log]. unfold enhance_row.
  fold (label_of snap idx).
  fold (needs_fill snap idx "employee_count"). fold (needs_fill snap idx "net_profit").
  destruct (classify_industry_group (label_of snap idx)); [|discriminate].
  simpl. rewrite He. simpl. by rewrite Hp.
Qed.

Lemma enhance_rows_noop snap idxs st :
  (∀ i, i ∈ idxs →
        is_ok (classify_industry_group (label_of snap i)) = true
        ∧ needs_fill snap i "employee_count" = false
        ∧ needs_fill snap i "net_profit" = false) →
  enhance_rows snap idxs st = Ok st.
Proof.
  induction idxs as [|idx idxs IH]; intros H; [reflexivity|].
  rewrite enhance_rows_cons.
  destruct (H idx) as (Hok & He & Hp); [apply elem_of_cons; by left|].
  rewrite enhance_row_noop by done. simpl.
  apply IH. intros i Hi. apply H. apply elem_of_cons. by right.
Qed.

Lemma row_get_frame_inv snap df i c :
  frame_inv snap df → c ≠ "employee_count" → c ≠ "net_profit" →
  row_get df i c = row_get snap i c.
Proof. intros Hfi H1 H2. unfold row_get. by rewrite (fi_data _ _ Hfi). Qed.

(** After the pass no guard holds any more. *)
Lemma needs_fill_after snap col est df i :
  i < nrows snap →
  col = "employee_count" ∨ col = "net_profit" →
  (∀ r g, isna (Some (est r g)) = false) →
  frame_inv snap df →
  col_inv snap col est (rev (seq 0 (nrows snap)) ++ [])%list df →
  needs_fill df i col = false.
Proof.
  intros Hi Hcol Hest Hfi [Hk Hf Hm]. unfold needs_fill.
  rewrite (row_get_frame_inv snap df i "revenue") by done.
  destruct (isna (row_get snap i "revenue")) eqn:Er; [by rewrite andb_false_r|].
  rewrite andb_true_r.
  destruct (isna (row_get snap i col)) eqn:Ec.
  - destruct (Hf i) as (g & r & _ & _ & ->); [by apply elem_of_rev_seq| |by apply Hest].
    unfold needs_fill. by rewrite Ec, Er.
  - by rewrite Hk.
Qed.

(** C4: when the pass returns a table, the table has the rows of the
    input; every column other than [employee_count] and [net_profit] holds
    exactly the cells it held in the input (and is a column of the output
    exactly when it is one of the input); and every cell that held a value
    in the input, those of [employee_count] and [net_profit] included,
    holds the same value in the output. *)
Theorem enhance_writes_only_fillable (df out : DataFrame) (log : Log) :
  wf_frame df = true →
  enhance_csv_data df = Ok (out, log) →
  nrows out = nrows df
  ∧ (∀ c, c ≠ "employee_count" → c ≠ "net_profit" →
          data out !! c = data df !! c ∧ (c ∈ columns out ↔ c ∈ columns df))
  ∧ (∀ c idx, isna (row_get df idx c) = false → row_get out idx c = row_get df idx c).
Proof.
  intros Hwf Hrun.
  destruct (enhance_csv_data_frame df out log Hwf Hrun) as (Hfi & He & Hp & _).
  split; [by destruct Hfi|]. split.
  - intros c H1 H2. split; [by apply (fi_data _ _ Hfi)|by apply (fi_columns _ _ Hfi)].
  - intros c idx Hna.
    destruct (decide (c = "employee_count")) as [->|H1]; [by apply (ci_kept _ _ _ _ _ He)|].
    destruct (decide (c = "net_profit")) as [->|H2]; [by apply (ci_kept _ _ _ _ _ Hp)|].
    by apply row_get_frame_inv.
Qed.

(** C4 on the sample table. *)
Lemma enhance_writes_only_fillable_witness :
  ∃ out log,
    wf_frame example_frame = true
    ∧ enhance_csv_data example_frame = Ok (out, log)
    ∧ nrows out = nrows example_frame
    ∧ (∀ c, c ≠ "employee_count" → c ≠ "net_profit" →
            data out !! c = data example_frame !! c
            ∧ (c ∈ columns out ↔ c ∈ columns example_frame))
    ∧ (∀ c idx, isna (row_get example_frame idx c) = false →
                row_get out idx c = row_get example_frame idx c).
Proof.
  destruct (enhance_csv_data example_frame) as [[out log]|e] eqn:Erun;
    [|vm_compute in Erun; discriminate Erun].
  exists out, log.
  assert (Hwf : wf_frame example_frame = true) by (vm_compute; reflexivity).
  split; [exact Hwf|]. split; [reflexivity|].
  exact (enhance_writes_only_fillable example_frame out log Hwf Erun).
Defined.

(** C5: running the pass on the table a first run returned succeeds,
    returns that same table unchanged (so no cell the first run filled is
    changed), and reports an empty [enhanced_fields] list and zero fields
    enhanced; its missing counts before and after are those the first run
    ended with. *)
Theorem enhance_idempotent (df out : DataFrame) (log : Log) :
  wf_frame df = true →
  enhance_csv_data df = Ok (out, log) →
  ∃ log2,
    enhance_csv_data out = Ok (out, log2)
    ∧ enhanced_fields log2 = []
    ∧ fields_enhanced log2 = 0
    ∧ original_missing log2 = final_missing log
    ∧ final_missing log2 = final_missing log.
Proof.
  intros Hwf Hrun.
  destruct (enhance_csv_data_frame df out log Hwf Hrun) as (Hfi & He & Hp & Hok).
  apply enhance_csv_data_inv in Hrun. destruct Hrun as (log1 & _ & ->).
  unfold enhance_csv_data. rewrite enhance_rows_noop.
  - simpl. eexists. split; [reflexivity|]. by simpl.
  - intros i Hi. apply list_elem_of_In, in_seq in Hi.
    rewrite (fi_nrows _ _ Hfi) in Hi.
    assert (Hlt : i < nrows df) by lia.
    split; [|split].
    + unfold label_of. rewrite (row_get_frame_inv df out) by done. by apply Hok.
    + by apply (needs_fill_after df "employee_count" employees_cell); auto.
    + by apply (needs_fill_after df "net_profit" profit_cell); auto.
Qed.

(** C5 on the sample table. *)
Lemma enhance_idempotent_witness :
  ∃ out log log2,
    wf_frame example_frame = true
    ∧ enhance_csv_data example_frame = Ok (out, log)
    ∧ enhance_csv_data out = Ok (out, log2)
    ∧ enhanced_fields log2 = []
    ∧ fields_enhanced log2 = 0
    ∧ original_missing log2 = final_missing log
    ∧ final_missing log2 = final_missing log.
Proof.
  destruct (enhance_csv_data example_frame) as [[out log]|e] eqn:Erun;
    [|vm_compute in Erun; discriminate Erun].
  assert (Hwf : wf_frame example_frame = true) by (vm_compute; reflexivity).
  destruct (enhance_idempotent example_frame out log Hwf Erun) as (log2 & Hsecond).
  exists out, log, log2. split; [exact Hwf|]. split; [reflexivity|]. exact Hsecond.
Defined.

(** What the counting loop has recorded for a column [c] after the
    columns [cols]. *)
Lemma missing_by_column_fold (df : DataFrame) (cols : list string) (c : string) :
  ∀ acc : gmap string nat,
    foldl (fun acc col =>
             let missing_count := missing_count df col in
             if Nat.ltb 0 missing_count then <[col := missing_count]> acc else acc)
          acc cols !! c
    = if bool_decide (c ∈ cols) && Nat.ltb 0 (missing_count df c)
      then Some (missing_count df c) else acc !! c.
Proof.
  induction cols as [|a cols IH]; intros acc; [reflexivity|].
  simpl. rewrite IH.
  destruct (decide (c = a)) as [->|Hne].
  - rewrite (bool_decide_eq_true_2 (a ∈ a :: cols)) by (apply elem_of_cons; by left).
    simpl. destruct (Nat.ltb 0 (missing_count df a)) eqn:E.
    + rewrite lookup_insert_eq. by rewrite andb_true_r, Tauto.if_same.
    + by rewrite andb_false_r.
  - assert (Hiff : bool_decide (c ∈ a :: cols) = bool_decide (c ∈ cols)).
    { apply bool_decide_ext. rewrite elem_of_cons. tauto. }
    rewrite Hiff.
    destruct (bool_decide (c ∈ cols) && Nat.ltb 0 (missing_count df c)); [reflexivity|].
    destruct (Nat.ltb 0 (missing_count df a)); [|reflexivity].
    by rewrite lookup_insert_ne.
Qed.

Lemma missing_by_column_lookup (df : DataFrame) (c : string) (n : nat) :
  missing_by_column df !! c = Some n
  ↔ c ∈ columns df ∧ n = missing_count df c ∧ 0 < n.
Proof.
  unfold missing_by_column. rewrite missing_by_column_fold, lookup_empty.
  destruct (bool_decide (c ∈ columns df)) eqn:Ein;
    [apply bool_decide_eq_true in Ein|apply bool_decide_eq_false in Ein]; simpl.
  - destruct (Nat.ltb_spec 0 (missing_count df c)).
    + split; [intros [= <-]; auto|intros (_ & -> & _); reflexivity].
    + split; [discriminate|intros (_ & -> & ?); lia].
  - split; [discriminate|tauto].
Qed.

(** Fewer missing cells when every missing cell was missing before. *)
Lemma null_count_le (l : list cell) : ∀ l' : list cell,
  length l' = length l →
  (∀ i, l' !! i = Some NaN → l !! i = Some NaN) →
  (null_count l' ≤ null_count l)%nat.
Proof.
  unfold null_count.
  induction l as [|x l IH]; intros [|x' l'] Hlen Hnan; simpl in *; try lia.
  assert (Htail : (length (List.filter is_nan l') ≤ length (List.filter is_nan l))%nat).
  { apply IH; [lia|]. intros i. apply (Hnan (S i)). }
  destruct x' as [| |]; simpl; try (destruct (is_nan x); simpl; lia).
  specialize (Hnan 0 eq_refl). simpl in Hnan. inversion Hnan; subst. simpl. lia.
Qed.

Lemma missing_by_column_default (df : DataFrame) (c : string) :
  c ∈ columns df → default 0 (missing_by_column df !! c) = missing_count df c.
Proof.
  intros Hc. unfold missing_by_column. rewrite missing_by_column_fold, lookup_empty.
  rewrite bool_decide_eq_true_2 by done. simpl.
  destruct (Nat.ltb_spec 0 (missing_count df c)); simpl; lia.
Qed.

Lemma missing_count_le_after snap col est done df :
  col ∈ columns snap →
  dom (data snap) = list_to_set (columns snap) →
  sized (nrows snap) snap →
  frame_inv snap df →
  col_inv snap col est done df →
  (missing_count df col ≤ missing_count snap col)%nat.
Proof.
  intros Hcol Hdom Hsized Hfi Hci. unfold missing_count.
  assert (Hsome : is_Some (data snap !! col)).
  { apply elem_of_dom. rewrite Hdom. by apply elem_of_list_to_set. }
  destruct Hsome as [l Hl].
  destruct (fi_stored _ _ Hfi col) as [l' Hl']; [eauto|].
  rewrite Hl, Hl'. simpl. apply null_count_le.
  - by rewrite (fi_sized _ _ Hfi col l' Hl'), (Hsized col l Hl).
  - intros i Hi.
    destruct (isna (row_get snap i col)) eqn:Ena.
    + unfold row_get in Ena. rewrite Hl in Ena. simpl in Ena.
      destruct (l !! i) as [[| |]|] eqn:Eli; try discriminate; [reflexivity|].
      apply lookup_ge_None in Eli. apply lookup_lt_Some in Hi.
      rewrite (fi_sized _ _ Hfi col l' Hl') in Hi. rewrite (Hsized col l Hl) in Eli. lia.
    + pose proof (ci_kept _ _ _ _ _ Hci i Ena) as Hk.
      unfold row_get in Hk, Ena. rewrite Hl in Hk, Ena. rewrite Hl' in Hk. simpl in *.
      rewrite Hi in Hk. rewrite <- Hk in Ena. discriminate.
Qed.

(** C6, counterexample: the table has no [employee_count] column, so no
    count is recorded for it before the pass.  The pass creates the column
    when it fills the first row, the second row has no revenue and stays
    missing, and the count recorded after the pass is 1: for this
    fillable column the count after is not at most the count before. *)
Lemma missing_count_of_created_column :
  wf_frame headcount_free_frame = true
  ∧ ("employee_count" ∉ columns headcount_free_frame)
  ∧ ∃ out log,
      enhance_csv_data headcount_free_frame = Ok (out, log)
      ∧ original_missing log !! "employee_count" = None
      ∧ final_missing log !! "employee_count" = Some 1
      ∧ ¬ (default 0 (final_missing log !! "employee_count")
           ≤ default 0 (original_missing log !! "employee_count"))%nat.
Proof.
  split; [reflexivity|]. split.
  { intros H. apply list_elem_of_In in H. simpl in H.
    destruct H as [H|[H|[H|H]]]; [discriminate ..|done]. }
  destruct (enhance_csv_data headcount_free_frame) as [[out log]|e] eqn:Erun;
    [|vm_compute in Erun; discriminate Erun].
  exists out, log. split; [reflexivity|].
  assert (Hout : Ok (out, log) = enhance_csv_data headcount_free_frame)
    by (symmetry; exact Erun).
  vm_compute in Hout. inversion Hout; subst out log. clear Hout Erun.
  split; [reflexivity|]. split; [reflexivity|].
  change (¬ (1 ≤ 0)%nat). lia.
Qed.

(** C6, as amended: when the pass returns, a count is recorded before
    (after) the pass for a column exactly when it is a column of the input
    (output) with at least one missing cell, and the recorded count is that
    number of missing cells; for every column of the input the count after
    the pass is at most the count before it; and for every column other
    than [employee_count] and [net_profit] the two counts, and the two
    records, are equal. *)
Theorem missing_counts_accounting (df out : DataFrame) (log : Log) :
  wf_frame df = true →
  enhance_csv_data df = Ok (out, log) →
  (∀ c n, original_missing log !! c = Some n
          ↔ c ∈ columns df ∧ n = missing_count df c ∧ 0 < n)
  ∧ (∀ c n, final_missing log !! c = Some n
            ↔ c ∈ columns out ∧ n = missing_count out c ∧ 0 < n)
  ∧ (∀ c, c ∈ columns df →
          (missing_count out c ≤ missing_count df c)%nat
          ∧ (default 0 (final_missing log !! c)
             ≤ default 0 (original_missing log !! c))%nat)
  ∧ (∀ c, c ≠ "employee_count" → c ≠ "net_profit" →
          missing_count out c = missing_count df c
          ∧ final_missing log !! c = original_missing log !! c).
Proof.
  intros Hwf Hrun.
  destruct (enhance_csv_data_frame df out log Hwf Hrun) as (Hfi & He & Hp & _).
  apply enhance_csv_data_inv in Hrun. destruct Hrun as (log1 & _ & ->). simpl.
  apply wf_frame_spec in Hwf. destruct Hwf as [Hdom Hsized].
  assert (Hother : ∀ c, c ≠ "employee_count" → c ≠ "net_profit" →
                        missing_count out c = missing_count df c).
  { intros c H1 H2. unfold missing_count. by rewrite (fi_data _ _ Hfi). }
  assert (Hle : ∀ c, c ∈ columns df → (missing_count out c ≤ missing_count df c)%nat).
  { intros c Hc.
    destruct (decide (c = "employee_count")) as [->|H1];
      [by eapply (missing_count_le_after df _ employees_cell)|].
    destruct (decide (c = "net_profit")) as [->|H2];
      [by eapply (missing_count_le_after df _ profit_cell)|].
    by rewrite Hother. }
  split; [intros c n; apply missing_by_column_lookup|].
  split; [intros c n; apply missing_by_column_lookup|].
  split.
  - intros c Hc. split; [by apply Hle|].
    rewrite !missing_by_column_default; [by apply Hle|done|by apply (fi_mono _ _ Hfi)].
  - intros c H1 H2. split; [by apply Hother|].
    unfold missing_by_column. rewrite !missing_by_column_fold, Hother by done.
    by rewrite (bool_decide_ext _ _ (fi_columns _ _ Hfi c H1 H2)).
Qed.

(** The amended C6 on the sample table. *)
Lemma missing_counts_accounting_witness :
  ∃ out log,
    wf_frame example_frame = true
    ∧ enhance_csv_data example_frame = Ok (out, log)
    ∧ original_missing log !! "employee_count" = Some 2
    ∧ final_missing log !! "employee_count" = Some 1
    ∧ (missing_count out "net_profit" ≤ missing_count example_frame "net_profit")%nat
    ∧ final_missing log !! "name" = original_missing log !! "name".
Proof.
  destruct (enhance_csv_data example_frame) as [[out log]|e] eqn:Erun;
    [|vm_compute in Erun; discriminate Erun].
  assert (Hwf : wf_frame example_frame = true) by (vm_compute; reflexivity).
  destruct (missing_counts_accounting example_frame out log Hwf Erun)
    as (Horig & Hfinal & Hle & Hother).
  exists out, log. split; [exact Hwf|]. split; [reflexivity|].
  assert (Hout : Ok (out, log) = enhance_csv_data example_frame) by (symmetry; exact Erun).
  split; [|split; [|split]].
  - vm_compute in Hout. by inversion Hout.
  - vm_compute in Hout. by inversion Hout.
  - apply Hle. apply list_elem_of_In. simpl. tauto.
  - by apply Hother.
Defined.

(** C3, the code on a table that breaks the claim.  The only row has no
    revenue and no industry label; its fields cannot be filled, and the
    claim has them left missing without an error.  The label cell holds
    the missing marker, which is not text, so the classifier's substring
    test raises [TypeError] and the pass returns no table. *)
Theorem enhance_csv_data_missing_label_raises :
  wf_frame unlabelled_frame = true
  ∧ isna (row_get unlabelled_frame 0 "revenue") = true
  ∧ enhance_csv_data unlabelled_frame = Raise TypeError.
Proof. repeat split. Qed.

(** The fill rule, for a pass that returns.  For every row the industry
    label was classified; after the pass [employee_count] is missing
    exactly when it was missing and the revenue is missing, and likewise
    [net_profit]; a field that was missing beside a present revenue holds
    the estimate computed from that revenue and the row's group. *)
Theorem enhance_fills_from_revenue (df out : DataFrame) (log : Log) (idx : nat) :
  wf_frame df = true →
  enhance_csv_data df = Ok (out, log) →
  idx < nrows df →
  ∃ g,
    classify_industry_group (default (Str "") (row_get df idx "industry_type")) = Ok g
    ∧ isna (row_get out idx "employee_count")
      = isna (row_get df idx "employee_count") && isna (row_get df idx "revenue")
    ∧ isna (row_get out idx "net_profit")
      = isna (row_get df idx "net_profit") && isna (row_get df idx "revenue")
    ∧ (isna (row_get df idx "employee_count") = true →
       isna (row_get df idx "revenue") = false →
       ∃ r, row_get df idx "revenue" = Some (Num r)
            ∧ row_get out idx "employee_count"
              = Some (Num (inject_Z (estimate_employees r g))))
    ∧ (isna (row_get df idx "net_profit") = true →
       isna (row_get df idx "revenue") = false →
       ∃ r, row_get df idx "revenue" = Some (Num r)
            ∧ row_get out idx "net_profit" = Some (Num (estimate_profit r g))).
Proof.
  intros Hwf Hrun Hidx.
  destruct (enhance_csv_data_frame df out log Hwf Hrun) as (Hfi & He & Hp & Hok).
  specialize (Hok idx Hidx). fold (label_of df idx).
  destruct (classify_industry_group (label_of df idx)) as [g|e] eqn:Eg; [|discriminate].
  exists g. split; [reflexivity|].
  assert (Hcol : ∀ col est done,
            idx ∈ done → (∀ r g, isna (Some (est r g)) = false) →
            col_inv df col est done out →
            isna (row_get out idx col)
              = isna (row_get df idx col) && isna (row_get df idx "revenue")
            ∧ (isna (row_get df idx col) = true →
               isna (row_get df idx "revenue") = false →
               ∃ r, row_get df idx "revenue" = Some (Num r)
                    ∧ row_get out idx col = Some (est r g))).
  { intros col est done Hdone Hest [Hk Hf Hm].
    destruct (isna (row_get df idx col)) eqn:Ec; simpl.
    - destruct (isna (row_get df idx "revenue")) eqn:Er.
      + split; [|discriminate]. apply Hm; [|done]. right. unfold needs_fill. by rewrite Ec, Er.
      + destruct (Hf idx Hdone) as (g' & r & Hg' & Hr & Hv).
        { unfold needs_fill. by rewrite Ec, Er. }
        rewrite Eg in Hg'. inversion Hg'; subst g'.
        split; [by rewrite Hv, Hest|]. intros _ _. by exists r.
    - split; [|discriminate]. by rewrite Hk. }
  pose proof (proj2 (elem_of_rev_seq (nrows df) idx) Hidx) as Hdone.
  destruct (Hcol "employee_count" employees_cell _ Hdone (fun _ _ => eq_refl) He)
    as [He1 He2].
  destruct (Hcol "net_profit" profit_cell _ Hdone (fun _ _ => eq_refl) Hp)
    as [Hp1 Hp2].
  split; [exact He1|]. split; [exact Hp1|]. split; [exact He2|exact Hp2].
Qed.

(** The fill rule on the first two rows of the sample table. *)
Lemma enhance_fills_from_revenue_witness :
  ∃ out log,
    enhance_csv_data example_frame = Ok (out, log)
    ∧ row_get out 0 "employee_count" = Some (Num (inject_Z (estimate_employees 10000000 "科技企业")))
    ∧ row_get out 0 "net_profit" = Some (Num (estimate_profit 10000000 "科技企业"))
    ∧ isna (row_get out 1 "employee_count") = true.
Proof.
  destruct (enhance_csv_data example_frame) as [[out log]|e] eqn:Erun;
    [|vm_compute in Erun; discriminate Erun].
  assert (Hwf : wf_frame example_frame = true) by (vm_compute; reflexivity).
  exists out, log. split; [reflexivity|].
  destruct (enhance_fills_from_revenue example_frame out log 0 Hwf Erun) as
    (g & Hg & _ & _ & He & Hp); [simpl; lia|].
  destruct (enhance_fills_from_revenue example_frame out log 1 Hwf Erun) as
    (_ & _ & Hmiss & _); [simpl; lia|].
  assert (g = "科技企业") as -> by (vm_compute in Hg; by inversion Hg).
  destruct He as (r & Hr & ->); [reflexivity|reflexivity|].
  destruct Hp as (r' & Hr' & ->); [reflexivity|reflexivity|].
  assert (r = 10000000%Q) as -> by (vm_compute in Hr; by inversion Hr).
  assert (r' = 10000000%Q) as -> by (vm_compute in Hr'; by inversion Hr').
  split; [reflexivity|]. split; [reflexivity|]. by rewrite Hmiss.
Defined.

Lemma enhance_row_succeeds snap idx st :
  is_ok (classify_industry_group (label_of snap idx)) = true →
  (∀ s, row_get snap idx "revenue" ≠ Some (Str s)) →
  ∃ st', enhance_row snap idx st = Ok st'.
Proof.
  intros Hok Hrev. destruct st as [df log]. unfold enhance_row. fold (label_of snap idx).
  destruct (classify_industry_group (label_of snap idx)) as [g|]; [|discriminate]. simpl.
  unfold row_getitem_float.
  destruct (row_get snap idx "revenue") as [[|r|s]|] eqn:Er;
    [| |by destruct (Hrev s)|]; simpl; rewrite ?andb_false_r; simpl; eauto.
  destruct (isna (row_get snap idx "employee_count")),
           (isna (row_get snap idx "net_profit")); simpl; eauto.
Qed.

(** The pass returns a table whenever, in every row, the industry label
    is text (or the column does not exist), the revenue is missing or a
    finite number, and neither fillable field holds text (a column of
    text may be of a type that refuses a number). *)
Theorem enhance_csv_data_succeeds (df : DataFrame) :
  (∀ idx, idx < nrows df →
          is_ok (classify_industry_group (default (Str "") (row_get df idx "industry_type")))
            = true
          ∧ (isna (row_get df idx "revenue") = true
             ∨ ∃ r, row_get df idx "revenue" = Some (Num r))
          ∧ (∀ s, row_get df idx "employee_count" ≠ Some (Str s))
          ∧ (∀ s, row_get df idx "net_profit" ≠ Some (Str s))) →
  ∃ out log, enhance_csv_data df = Ok (out, log).
Proof.
  intros H. unfold enhance_csv_data.
  assert (Hrows : ∀ idxs st, (∀ i, i ∈ idxs → i < nrows df) →
                             ∃ st', enhance_rows df idxs st = Ok st').
  { induction idxs as [|i idxs IH]; intros st Hlt; [by eexists|].
    rewrite enhance_rows_cons.
    destruct (H i) as (Hok & Hrev & _); [apply Hlt, elem_of_cons; by left|].
    destruct (enhance_row_succeeds df i st Hok) as [st1 ->].
    { intros s Hs. rewrite Hs in Hrev. destruct Hrev as [Hna|[r Hr]]; discriminate. }
    simpl. apply IH. intros j Hj. apply Hlt, elem_of_cons. by right. }
  destruct (Hrows (seq 0 (nrows df)) (df, mkLog (missing_by_column df) [] ∅ ∅ 0 0 0))
    as [[out log1] ->].
  { intros i Hi. apply list_elem_of_In, in_seq in Hi. lia. }
  simpl. by eexists _, _.
Qed.

(** The sample table meets the conditions, so the pass returns on it. *)
Lemma enhance_csv_data_succeeds_witness :
  ∃ out log, enhance_csv_data example_frame = Ok (out, log).
Proof.
  apply (enhance_csv_data_succeeds example_frame).
  intros idx Hidx.
  destruct idx as [|[|[|idx]]]; [| | |simpl in Hidx; lia];
    (split; [reflexivity|]; split; [|split; intros s; vm_compute; discriminate]).
  - right. by eexists.
  - by left.
  - right. by eexists.
Defined.

(** ** Further properties of the estimators and of the log *)


Lemma elem_of_note_enhanced field method log f :
  f ∈ enhanced_fields (note_enhanced field method log)
  ↔ f ∈ enhanced_fields log ∨ f = field.
Proof.
  unfold note_enhanced. case_bool_decide as Hin; simpl.
  - split; [by left|]. intros [H| ->]; done.
  - rewrite elem_of_app, list_elem_of_singleton. tauto.
Qed.

Lemma NoDup_note_enhanced field method log :
  NoDup (enhanced_fields log) → NoDup (enhanced_fields (note_enhanced field method log)).
Proof.
  intros Hnd. unfold note_enhanced. case_bool_decide as Hin; simpl; [done|].
  apply NoDup_app. split; [done|]. split; [|apply NoDup_singleton].
  intros x Hx Hx'. apply list_elem_of_singleton in Hx'. by subst.
Qed.

(** The fields logged as enhanced after the rows [idxs], starting from
    the log [log]. *)
Lemma enhance_rows_enhanced_fields snap idxs : ∀ df log df' log',
  enhance_rows snap idxs (df, log) = Ok (df', log') →
  (∀ f, f ∈ enhanced_fields log'
        ↔ f ∈ enhanced_fields log
          ∨ (f = "employee_count" ∨ f = "net_profit")
            ∧ ∃ i, i ∈ idxs ∧ needs_fill snap i f = true)
  ∧ (NoDup (enhanced_fields log) → NoDup (enhanced_fields log')).
Proof.
  induction idxs as [|idx idxs IH]; intros df log df' log' Hrun.
  - simpl in Hrun. inversion Hrun; subst. split; [|done].
    intros f. split; [by left|].
    intros [H|(_ & i & Hi & _)]; [done|]. by apply elem_of_nil in Hi.
  - rewrite enhance_rows_cons in Hrun.
    destruct (enhance_row snap idx (df, log)) as [[df1 log1]|e] eqn:Erow; simpl in Hrun;
      [|discriminate].
    destruct (IH _ _ _ _ Hrun) as [Hmem Hnd]. clear IH Hrun.
    apply enhance_row_inv in Erow.
    destruct Erow as (g & _ & df0 & log0 & H1 & H2).
    assert (Hstep :
      (∀ f, f ∈ enhanced_fields log1
            ↔ f ∈ enhanced_fields log
              ∨ (f = "employee_count" ∨ f = "net_profit") ∧ needs_fill snap idx f = true)
      ∧ (NoDup (enhanced_fields log) → NoDup (enhanced_fields log1))).
    { destruct (needs_fill snap idx "employee_count") eqn:Ee;
        [destruct H1 as (? & _ & _ & ->)|destruct H1 as (_ & ->)];
      (destruct (needs_fill snap idx "net_profit") eqn:Ep;
        [destruct H2 as (? & _ & _ & ->)|destruct H2 as (_ & ->)]).
      all: split; [|auto using NoDup_note_enhanced].
      all: intros f; rewrite ?elem_of_note_enhanced.
      all: split; [intros H|intros [H|[[->| ->] H]]]; try tauto; try congruence.
      all: repeat match goal with H : _ ∨ _ |- _ => destruct H end; subst; auto. }
    destruct Hstep as [Hmem1 Hnd1]. split; [|auto].
    intros f. rewrite Hmem, Hmem1. split.
    + intros [[H|[Hf H]]|(Hf & i & Hi & H)]; [by left| |].
      * right. split; [done|]. exists idx. split; [apply elem_of_cons; by left|done].
      * right. split; [done|]. exists i. split; [apply elem_of_cons; by right|done].
    + intros [H|(Hf & i & Hi & H)]; [by left; left|].
      apply elem_of_cons in Hi. destruct Hi as [->|Hi].
      * left. right. done.
      * right. split; [done|]. by exists i.
Qed.

(** A field is logged as enhanced exactly when some row had it filled;
    the list has no repetition and [fields_enhanced] is its length. *)
Theorem enhanced_fields_iff_filled (df out : DataFrame) (log : Log) :
  enhance_csv_data df = Ok (out, log) →
  (∀ f, f ∈ enhanced_fields log
        ↔ (f = "employee_count" ∨ f = "net_profit")
          ∧ ∃ idx, idx < nrows df
                   ∧ isna (row_get df idx f) = true
                   ∧ isna (row_get df idx "revenue") = false)
  ∧ NoDup (enhanced_fields log)
  ∧ fields_enhanced log = length (enhanced_fields log)
  ∧ total_records log = nrows out.
Proof.
  intros Hrun. apply enhance_csv_data_inv in Hrun. destruct Hrun as (log1 & Hrun & ->).
  simpl. apply enhance_rows_enhanced_fields in Hrun. destruct Hrun as [Hmem Hnd].
  split; [|split; [apply Hnd; simpl; apply NoDup_nil_2|done]].
  intros f. rewrite Hmem. simpl. split.
  - intros [H|(Hf & i & Hi & H)]; [by apply elem_of_nil in H|].
    split; [done|]. exists i. apply list_elem_of_In, in_seq in Hi.
    unfold needs_fill in H. apply andb_true_iff in H. destruct H as [H1 H2].
    apply negb_true_iff in H2. split; [lia|done].
  - intros (Hf & i & Hi & H1 & H2). right. split; [done|]. exists i.
    split; [apply list_elem_of_In, in_seq; lia|].
    unfold needs_fill. by rewrite H1, H2.
Qed.

(** The log of the pass over the sample table. *)
Lemma enhanced_fields_iff_filled_witness :
  ∃ out log,
    enhance_csv_data example_frame = Ok (out, log)
    ∧ "employee_count" ∈ enhanced_fields log
    ∧ fields_enhanced log = length (enhanced_fields log).
Proof.
  destruct (enhance_csv_data example_frame) as [[out log]|e] eqn:Erun;
    [|vm_compute in Erun; discriminate Erun].
  destruct (enhanced_fields_iff_filled example_frame out log Erun) as (Hmem & _ & Hlen & _).
  exists out, log. split; [reflexivity|]. split; [|exact Hlen].
  apply Hmem. split; [by left|]. exists 0. split; [simpl; lia|]. split; reflexivity.
Defined.

Lemma wf_frame_intro (df : DataFrame) :
  dom (data df) = list_to_set (columns df) → sized (nrows df) df → wf_frame df = true.
Proof.
  intros Hd Hs. unfold wf_frame. apply andb_true_iff. split; [by apply bool_decide_eq_true|].
  apply forallb_forall. intros c Hc. apply list_elem_of_In in Hc.
  assert (Hsome : is_Some (data df !! c)).
  { apply elem_of_dom. rewrite Hd. by apply elem_of_list_to_set. }
  destruct Hsome as [l Hl]. rewrite Hl. apply Nat.eqb_eq. by apply (Hs c).
Qed.

(** The table the pass returns is again a well-formed frame. *)
Theorem enhance_csv_data_wf (df out : DataFrame) (log : Log) :
  wf_frame df = true → enhance_csv_data df = Ok (out, log) → wf_frame out = true.
Proof.
  intros Hwf Hrun.
  destruct (enhance_csv_data_frame df out log Hwf Hrun) as (Hfi & _).
  apply wf_frame_intro; [by destruct Hfi|].
  rewrite (fi_nrows _ _ Hfi). by destruct Hfi.
Qed.

(** The table returned for the sample table is well formed. *)
Lemma enhance_csv_data_wf_witness :
  ∃ out log, enhance_csv_data example_frame = Ok (out, log) ∧ wf_frame out = true.
Proof.
  destruct (enhance_csv_data example_frame) as [[out log]|e] eqn:Erun;
    [|vm_compute in Erun; discriminate Erun].
  exists out, log. split; [reflexivity|].
  exact (enhance_csv_data_wf example_frame out log eq_refl Erun).
Defined.

(** ** The benchmark table and the estimators, further *)

(** Every group the classifier answers with is a key of the benchmark
    table, so the estimators use that group's own row; a name that is not
    a key is given the retail row. *)
Theorem classified_group_has_benchmark (label g : string) :
  (classify_industry_group (Str label) = Ok g →
   ∃ b, industry_benchmarks !! g = Some b ∧ benchmark_get g = b)
  ∧ (industry_benchmarks !! g = None →
     benchmark_get g = mkBenchmark 0.12 0.08 0.45 25 0.08).
Proof.
  split.
  - intros Hc. destruct (classify_str_ok label) as (g' & Hg' & Hin).
    rewrite Hc in Hg'. inversion Hg'; subst g'.
    unfold group_names in Hin. rewrite !elem_of_cons in Hin.
    destruct Hin as [->|[->|[->|[->|[->|Hin]]]]]; [..|by apply elem_of_nil in Hin];
      eexists; split; reflexivity.
  - intros Hn. unfold benchmark_get. rewrite Hn. reflexivity.
Qed.

Lemma classified_group_has_benchmark_witness :
  ∃ b, industry_benchmarks !! "科技企业" = Some b ∧ benchmark_get "科技企业" = b.
Proof.
  destruct (classified_group_has_benchmark "软件开发" "科技企业") as [Hkey _].
  apply Hkey. reflexivity.
Defined.

Lemma py_int_mono (x y : Q) : (x <= y)%Q → (py_int x <= py_int y)%Z.
Proof.
  intros Hxy. rewrite !py_int_truncates.
  destruct (Qle_bool 0 x) eqn:Ex, (Qle_bool 0 y) eqn:Ey.
  - by apply Qfloor_resp_le.
  - apply Qle_bool_iff in Ex.
    assert (Hy : (0 <= y)%Q) by (by apply Qle_trans with x).
    apply Qle_bool_iff in Hy. congruence.
  - assert (Hx : (x < 0)%Q).
    { apply Qnot_le_lt. intros H. apply Qle_bool_iff in H. congruence. }
    apply Qle_bool_iff in Ey.
    assert (Qceiling x <= 0)%Z.
    { assert (Hc : (Qceiling x <= Qceiling 0)%Z) by (apply Qceiling_resp_le; by apply Qlt_le_weak).
      exact Hc. }
    assert (0 <= Qfloor y)%Z.
    { assert (Hf : (Qfloor 0 <= Qfloor y)%Z) by (by apply Qfloor_resp_le). exact Hf. }
    lia.
  - by apply Qceiling_resp_le.
Qed.

(** A larger revenue never lowers the employee estimate: each float
    operation is monotone, and so is the truncation. *)
Theorem estimate_employees_monotone (r1 r2 : Q) (industry_group : string) :
  (r1 <= r2)%Q →
  (estimate_employees r1 industry_group <= estimate_employees r2 industry_group)%Z.
Proof.
  intros Hr. unfold estimate_employees.
  apply Z.max_le_compat_r. apply py_int_mono.
  pose proof (employee_per_million_pos industry_group) as He.
  apply fl_mono. apply Qmult_le_compat_r.
  - apply fl_mono. apply Qmult_le_compat_r; [exact Hr|]. unfold Qle. simpl. lia.
  - unfold Qle. simpl. lia.
Qed.

Lemma estimate_employees_monotone_witness :
  (1000000 <= 3000000)%Q
  ∧ (estimate_employees 1000000 "制造业" <= estimate_employees 3000000 "制造业")%Z.
Proof.
  assert (H : (1000000 <= 3000000)%Q) by (unfold Qle; simpl; lia).
  split; [exact H|]. exact (estimate_employees_monotone 1000000 3000000 "制造业" H).
Defined.

(** Once the exact scaled revenue reaches 10 the estimate is that number
    with its fraction dropped, up to the rounding of the two float
    operations: each moves its result by a factor between
    [1 - unit_roundoff] and [1 + unit_roundoff], so the estimate is at
    most the scaled revenue times the square of [1 + unit_roundoff], and
    more than the scaled revenue times the square of
    [1 - unit_roundoff], less one. *)
Theorem estimate_employees_within_one (revenue : Q) (industry_group : string) :
  let scaled :=
    (revenue / 1000000
     * inject_Z (employee_per_million_revenue (benchmark_get industry_group)))%Q in
  (10 <= scaled)%Q →
  (inject_Z (estimate_employees revenue industry_group)
   <= scaled * ((1 + unit_roundoff) * (1 + unit_roundoff)))%Q
  ∧ (scaled * ((1 - unit_roundoff) * (1 - unit_roundoff))
     < inject_Z (estimate_employees revenue industry_group) + 1)%Q.
Proof.
  intros scaled Hs. unfold estimate_employees.
  pose proof (employee_per_million_pos industry_group) as He.
  set (e := inject_Z (employee_per_million_revenue (benchmark_get industry_group))) in *.
  assert (He' : (0 < e)%Q) by (unfold e; change 0%Q with (inject_Z 0); by rewrite <- Zlt_Qlt).
  set (a := (revenue / 1000000)%Q) in *.
  destruct unit_roundoff_bounds as [Hu0 Hu1].
  assert (Ha : (0 <= a)%Q).
  { destruct (Qlt_le_dec a 0) as [Hneg|Hok]; [|exact Hok]. exfalso.
    assert (a * e <= 0 * e)%Q by (apply Qmult_le_compat_r; lra).
    subst scaled. lra. }
  unfold fdiv, fmul. fold a.
  destruct (fl_error a Ha) as [Hq1 Hq2].
  pose proof (fl_nonneg a Ha) as Hq0.
  set (q := fl a) in *.
  assert (Hqe : (0 <= q * e)%Q) by (apply Qmult_le_0_compat; lra).
  destruct (fl_error (q * e) Hqe) as [Hp1 Hp2].
  pose proof (fl_nonneg (q * e) Hqe) as Hp0.
  set (p := fl (q * e)) in *.
  assert (Hlo : (scaled * ((1 - unit_roundoff) * (1 - unit_roundoff)) <= p)%Q).
  { apply Qle_trans with (q * e * (1 - unit_roundoff))%Q; [|exact Hp1].
    setoid_replace (scaled * ((1 - unit_roundoff) * (1 - unit_roundoff)))%Q with (a * (1 - unit_roundoff) * e * (1 - unit_roundoff))%Q
      using relation Qeq by (unfold scaled; ring).
    apply Qmult_le_compat_r; [|lra]. apply Qmult_le_compat_r; lra. }
  assert (Hhi : (p <= scaled * ((1 + unit_roundoff) * (1 + unit_roundoff)))%Q).
  { apply Qle_trans with (q * e * (1 + unit_roundoff))%Q; [exact Hp2|].
    setoid_replace (scaled * ((1 + unit_roundoff) * (1 + unit_roundoff)))%Q with (a * (1 + unit_roundoff) * e * (1 + unit_roundoff))%Q
      using relation Qeq by (unfold scaled; ring).
    apply Qmult_le_compat_r; [|lra]. apply Qmult_le_compat_r; lra. }
  rewrite py_int_truncates. apply Qle_bool_iff in Hp0. rewrite Hp0.
  pose proof (Qfloor_le p) as Hf1. pose proof (Qlt_floor p) as Hf2.
  rewrite inject_Z_plus in Hf2. change (inject_Z 1) with 1%Q in Hf2.
  assert (Hmono : (scaled <= scaled * ((1 + unit_roundoff) * (1 + unit_roundoff)))%Q) by nra.
  destruct (Z.max_spec (Qfloor p) 10) as [[Hlt ->]|[Hge ->]].
  - split; [change (inject_Z 10) with 10%Q; lra|].
    assert (inject_Z (Qfloor p) < inject_Z 10)%Q by (by rewrite <- Zlt_Qlt).
    change (inject_Z 10) with 10%Q in *. lra.
  - split; lra.
Qed.

Lemma estimate_employees_within_one_witness :
  (inject_Z (estimate_employees 1160000 "商贸零售")
   <= 1160000 / 1000000 * inject_Z 25 * ((1 + unit_roundoff) * (1 + unit_roundoff)))%Q
  ∧ (1160000 / 1000000 * inject_Z 25 * ((1 - unit_roundoff) * (1 - unit_roundoff))
     < inject_Z (estimate_employees 1160000 "商贸零售") + 1)%Q.
Proof.
  apply (estimate_employees_within_one 1160000 "商贸零售").
  vm_compute. discriminate.
Defined.

(** The dictionary returned holds exactly the four keys; the debt ratio
    is the group's whatever the inputs; the asset turnover is
    [revenue / total_assets] when both are present and nonzero and 1
    when either is absent or zero. *)
Theorem debt_ratio_and_turnover_cases
    (total_assets net_profit revenue : option Q) (industry_group : string) :
  ∃ ratios : gmap string Q,
    estimate_financial_ratios total_assets net_profit revenue industry_group = Ok ratios
    ∧ dom ratios = {["roe"; "roa"; "debt_ratio"; "total_asset_turnover"]}
    ∧ ratios !! "debt_ratio" = Some (debt_ratio (benchmark_get industry_group))
    ∧ (∀ r t, revenue = Some r → total_assets = Some t →
         ¬ (r == 0)%Q → ¬ (t == 0)%Q →
         ratios !! "total_asset_turnover" = Some (r / t)%Q)
    ∧ (truthy revenue = false ∨ truthy total_assets = false →
       ratios !! "total_asset_turnover" = Some 1%Q).
Proof.
  destruct (estimate_financial_ratios_lookup total_assets net_profit revenue industry_group)
    as (ratios & Hok & _ & _ & Hdebt & Hturn).
  exists ratios. split; [exact Hok|].
  split.
  { rewrite estimate_financial_ratios_ok in Hok. inversion Hok; subst ratios.
    rewrite !dom_insert_L, dom_empty_L. set_solver. }
  split; [exact Hdebt|]. rewrite Hturn. unfold turnover_value. split.
  - intros r t -> -> Hr Ht. by rewrite (both_truthy_intro r t Hr Ht).
  - intros H. apply both_truthy_None in H. by rewrite H.
Qed.

Lemma debt_ratio_and_turnover_cases_witness :
  ∃ ratios : gmap string Q,
    estimate_financial_ratios (Some 200%Q) None (Some 50%Q) "金融业" = Ok ratios
    ∧ ratios !! "total_asset_turnover" = Some (50 / 200)%Q.
Proof.
  destruct (debt_ratio_and_turnover_cases (Some 200%Q) None (Some 50%Q) "金融业")
    as (ratios & Hok & _ & _ & Hturn & _).
  exists ratios. split; [exact Hok|].
  apply (Hturn 50%Q 200%Q); [reflexivity|reflexivity| |]; unfold Qeq; simpl; lia.
Defined.

(** ** The fill pass, further *)

Lemma classify_outcome (c : cell) :
  (∃ g, classify_industry_group c = Ok g) ∨ classify_industry_group c = Raise TypeError.
Proof.
  destruct c as [|x|s]; [by right|by right|left].
  destruct (classify_str_ok s) as (g & Hg & _). by exists g.
Qed.

Lemma enhance_row_outcome snap idx st :
  (raises_in_row snap idx ∧ enhance_row snap idx st = Raise TypeError)
  ∨ (¬ raises_in_row snap idx ∧ ∃ st', enhance_row snap idx st = Ok st').
Proof.
  destruct st as [df log]. unfold raises_in_row, enhance_row. fold (label_of snap idx).
  destruct (classify_outcome (label_of snap idx)) as [[g Hg]|Hg]; rewrite Hg; simpl;
    [|left; split; [by left|done]].
  unfold row_getitem_float.
  destruct (row_get snap idx "revenue") as [[|r|s]|] eqn:Er; simpl.
  - right. rewrite !andb_false_r. simpl. split; [|eauto].
    intros [H|(s & H & _)]; discriminate.
  - right. split; [intros [H|(s & H & _)]; discriminate|].
    destruct (isna (row_get snap idx "employee_count")),
             (isna (row_get snap idx "net_profit")); simpl; eauto.
  - destruct (isna (row_get snap idx "employee_count")) eqn:Ee; simpl.
    + left. split; [right; exists s; auto|done].
    + destruct (isna (row_get snap idx "net_profit")) eqn:Ep; simpl.
      * left. split; [right; exists s; auto|done].
      * right. split; [|eauto].
        intros [H|(s' & _ & [H|H])]; discriminate.
  - right. rewrite !andb_false_r. simpl. split; [|eauto].
    intros [H|(s & H & _)]; discriminate.
Qed.

Lemma enhance_rows_outcome snap idxs : ∀ st,
  ((∃ i, i ∈ idxs ∧ raises_in_row snap i) ∧ enhance_rows snap idxs st = Raise TypeError)
  ∨ ((∀ i, i ∈ idxs → ¬ raises_in_row snap i) ∧ ∃ st', enhance_rows snap idxs st = Ok st').
Proof.
  induction idxs as [|idx idxs IH]; intros st.
  - right. split; [intros i Hi; by apply elem_of_nil in Hi|by eexists].
  - rewrite enhance_rows_cons.
    destruct (enhance_row_outcome snap idx st) as [[Hbad ->]|[Hgood [st1 ->]]]; simpl.
    + left. split; [|done]. exists idx. split; [apply elem_of_cons; by left|done].
    + destruct (IH st1) as [[(i & Hi & Hbad) ->]|[Hall [st' ->]]].
      * left. split; [|done]. exists i. split; [apply elem_of_cons; by right|done].
      * right. split; [|by eexists].
        intros i Hi. apply elem_of_cons in Hi. destruct Hi as [->|Hi]; auto.
Qed.

(** The pass returns no table when some row has an industry label that
    is not text, or a revenue that is text beside a missing
    [employee_count] or [net_profit]: whatever the other rows hold, the
    iteration over that row, or an earlier one, raises. *)
Theorem enhance_csv_data_fails (df : DataFrame) (idx : nat) :
  idx < nrows df →
  classify_industry_group (default (Str "") (row_get df idx "industry_type"))
    = Raise TypeError
  ∨ (∃ s, row_get df idx "revenue" = Some (Str s)
          ∧ (isna (row_get df idx "employee_count") = true
             ∨ isna (row_get df idx "net_profit") = true)) →
  is_ok (enhance_csv_data df) = false.
Proof.
  intros Hidx Hbad. unfold enhance_csv_data.
  destruct (enhance_rows_outcome df (seq 0 (nrows df))
              (df, mkLog (missing_by_column df) [] ∅ ∅ 0 0 0))
    as [[_ ->]|[Hall _]]; [reflexivity|].
  exfalso. apply (Hall idx); [|exact Hbad].
  apply list_elem_of_In, in_seq. lia.
Qed.

Lemma enhance_csv_data_fails_witness :
  is_ok (enhance_csv_data unlabelled_frame) = false.
Proof.
  apply (enhance_csv_data_fails unlabelled_frame 0); [simpl; lia|].
  left. reflexivity.
Defined.

Lemma missing_by_column_dom_other snap df c :
  frame_inv snap df → c ≠ "employee_count" → c ≠ "net_profit" →
  missing_by_column df !! c = missing_by_column snap !! c.
Proof.
  intros Hfi H1 H2. unfold missing_by_column. rewrite !missing_by_column_fold.
  unfold missing_count. rewrite (fi_data _ _ Hfi c H1 H2).
  by rewrite (bool_decide_ext _ _ (fi_columns _ _ Hfi c H1 H2)).
Qed.

Lemma elem_of_fillable (c : string) :
  c ∈ ({["employee_count"; "net_profit"]} : gset string)
  ↔ c = "employee_count" ∨ c = "net_profit".
Proof. rewrite elem_of_union, !elem_of_singleton. tauto. Qed.

Lemma size_le_plus_fillable (X Y : gset string) :
  X ⊆ Y ∪ {["employee_count"; "net_profit"]} → (size X ≤ size Y + 2)%nat.
Proof.
  intros HXY. apply subseteq_size in HXY. rewrite size_union_alt in HXY.
  assert (Hd : (size (({["employee_count"; "net_profit"]} : gset string) ∖ Y) ≤ 2)%nat).
  { change 2 with (size ({["employee_count"; "net_profit"]} : gset string)).
    apply subseteq_size. intros c Hc. apply elem_of_difference in Hc. tauto. }
  lia.
Qed.

(** The number of columns that stop having missing values.  It is never
    outside -2 .. 2; when the input has both fillable columns no column
    starts having missing values, so it is between 0 and 2. *)
Theorem missing_reduction_bounds (df out : DataFrame) (log : Log) :
  wf_frame df = true →
  enhance_csv_data df = Ok (out, log) →
  (-2 <= missing_reduction log <= 2)%Z
  ∧ ("employee_count" ∈ columns df → "net_profit" ∈ columns df →
     dom (final_missing log) ⊆ dom (original_missing log)
     ∧ (0 <= missing_reduction log)%Z).
Proof.
  intros Hwf Hrun.
  destruct (enhance_csv_data_frame df out log Hwf Hrun) as (Hfi & He & Hp & _).
  apply enhance_csv_data_inv in Hrun. destruct Hrun as (log1 & _ & ->). simpl.
  apply wf_frame_spec in Hwf. destruct Hwf as [Hdom Hsized].
  set (orig := missing_by_column df). set (fin := missing_by_column out).
  assert (Hsame : ∀ c, c ≠ "employee_count" → c ≠ "net_profit" → fin !! c = orig !! c).
  { intros c H1 H2. by apply missing_by_column_dom_other. }
  assert (Hfo : dom fin ⊆ dom orig ∪ {["employee_count"; "net_profit"]}).
  { intros c Hc. apply elem_of_dom in Hc. apply elem_of_union.
    destruct (decide (c = "employee_count")) as [->|H1];
      [right; apply elem_of_fillable; by left|].
    destruct (decide (c = "net_profit")) as [->|H2];
      [right; apply elem_of_fillable; by right|].
    rewrite Hsame in Hc by done. left. by apply elem_of_dom. }
  assert (Hof : dom orig ⊆ dom fin ∪ {["employee_count"; "net_profit"]}).
  { intros c Hc. apply elem_of_dom in Hc. apply elem_of_union.
    destruct (decide (c = "employee_count")) as [->|H1];
      [right; apply elem_of_fillable; by left|].
    destruct (decide (c = "net_profit")) as [->|H2];
      [right; apply elem_of_fillable; by right|].
    rewrite <- Hsame in Hc by done. left. by apply elem_of_dom. }
  pose proof (size_le_plus_fillable _ _ Hfo) as S1.
  pose proof (size_le_plus_fillable _ _ Hof) as S2.
  rewrite !size_dom in S1, S2.
  split; [lia|].
  intros Hce Hcp.
  assert (Hsub : dom fin ⊆ dom orig).
  { intros c Hc. apply elem_of_dom in Hc. destruct Hc as [n Hn].
    apply missing_by_column_lookup in Hn. destruct Hn as (Hcol & -> & Hpos).
    assert (Hcdf : c ∈ columns df).
    { destruct (decide (c = "employee_count")) as [->|H1]; [done|].
      destruct (decide (c = "net_profit")) as [->|H2']; [done|].
      by apply (fi_columns _ _ Hfi). }
    assert (Hle : (missing_count out c ≤ missing_count df c)%nat).
    { destruct (decide (c = "employee_count")) as [->|H1];
        [by eapply (missing_count_le_after df _ employees_cell)|].
      destruct (decide (c = "net_profit")) as [->|H2'];
        [by eapply (missing_count_le_after df _ profit_cell)|].
      unfold missing_count. by rewrite (fi_data _ _ Hfi). }
    apply elem_of_dom. exists (missing_count df c).
    apply missing_by_column_lookup. split; [done|]. split; [done|lia]. }
  split; [exact Hsub|].
  apply subseteq_size in Hsub. rewrite !size_dom in Hsub. lia.
Qed.

Lemma missing_reduction_bounds_witness :
  ∃ out log,
    enhance_csv_data example_frame = Ok (out, log)
    ∧ (-2 <= missing_reduction log <= 2)%Z
    ∧ (0 <= missing_reduction log)%Z.
Proof.
  destruct (enhance_csv_data example_frame) as [[out log]|e] eqn:Erun;
    [|vm_compute in Erun; discriminate Erun].
  destruct (missing_reduction_bounds example_frame out log eq_refl Erun) as [Hb Hpos].
  exists out, log. split; [reflexivity|]. split; [exact Hb|].
  apply Hpos; apply list_elem_of_In; simpl; tauto.
Defined.

Lemma methods_note_enhanced field method log :
  method_recorded field method →
  (∀ f m, enhancement_methods log !! f = Some m
          ↔ f ∈ enhanced_fields log ∧ method_recorded f m) →
  ∀ f m, enhancement_methods (note_enhanced field method log) !! f = Some m
         ↔ f ∈ enhanced_fields (note_enhanced field method log) ∧ method_recorded f m.
Proof.
  intros Hrec Hinv f m. rewrite elem_of_note_enhanced.
  unfold note_enhanced. case_bool_decide as Hin; simpl.
  - rewrite Hinv. split; [intros [H1 H2]; split; [by left|done]|].
    intros [[H| ->] H2]; done.
  - destruct (decide (f = field)) as [->|Hne].
    + rewrite lookup_insert_eq. split.
      * intros [= <-]. split; [by right|done].
      * intros [_ Hm]. f_equal.
        destruct Hrec as [[-> ->]|[-> ->]], Hm as [[? ->]|[? ->]]; congruence.
    + rewrite lookup_insert_ne by done. rewrite Hinv. split.
      * intros [H1 H2]. split; [by left|done].
      * intros [[H|H] H2]; [done|congruence].
Qed.

Lemma enhance_rows_methods snap idxs : ∀ df log df' log',
  enhance_rows snap idxs (df, log) = Ok (df', log') →
  (∀ f m, enhancement_methods log !! f = Some m
          ↔ f ∈ enhanced_fields log ∧ method_recorded f m) →
  ∀ f m, enhancement_methods log' !! f = Some m
         ↔ f ∈ enhanced_fields log' ∧ method_recorded f m.
Proof.
  induction idxs as [|idx idxs IH]; intros df log df' log' Hrun Hinv.
  - simpl in Hrun. by inversion Hrun; subst.
  - rewrite enhance_rows_cons in Hrun.
    destruct (enhance_row snap idx (df, log)) as [[df1 log1]|e] eqn:Erow; simpl in Hrun;
      [|discriminate].
    apply (IH _ _ _ _ Hrun). clear IH Hrun.
    apply enhance_row_inv in Erow.
    destruct Erow as (g & _ & df0 & log0 & H1 & H2).
    assert (Hinv0 : ∀ f m, enhancement_methods log0 !! f = Some m
                           ↔ f ∈ enhanced_fields log0 ∧ method_recorded f m).
    { destruct (needs_fill snap idx "employee_count");
        [destruct H1 as (? & _ & _ & ->)|by destruct H1 as (_ & ->)].
      apply methods_note_enhanced; [by left|done]. }
    destruct (needs_fill snap idx "net_profit");
      [destruct H2 as (? & _ & _ & ->)|by destruct H2 as (_ & ->)].
    apply methods_note_enhanced; [by right|done].
Qed.

(** The method descriptions the pass logs: a description is recorded for
    a field exactly when the field is logged as enhanced, and it is the
    fixed text of that field's branch; so every enhanced field has one. *)
Theorem enhancement_methods_recorded (df out : DataFrame) (log : Log) :
  enhance_csv_data df = Ok (out, log) →
  (∀ f m, enhancement_methods log !! f = Some m
          ↔ f ∈ enhanced_fields log
            ∧ ((f = "employee_count" ∧ m = "基于营收和行业标杆估算")
               ∨ (f = "net_profit" ∧ m = "基于营收和行业利润率估算")))
  ∧ (∀ f, f ∈ enhanced_fields log → is_Some (enhancement_methods log !! f)).
Proof.
  intros Hrun.
  apply enhance_csv_data_inv in Hrun. destruct Hrun as (log1 & Hrun & ->). simpl in *.
  assert (Hinv : ∀ f m, enhancement_methods log1 !! f = Some m
                        ↔ f ∈ enhanced_fields log1 ∧ method_recorded f m).
  { apply (enhance_rows_methods _ _ _ _ _ _ Hrun). intros f m. simpl.
    rewrite lookup_empty. split; [discriminate|]. intros [H _]. by apply elem_of_nil in H. }
  split; [exact Hinv|].
  apply enhance_rows_enhanced_fields in Hrun. destruct Hrun as [Hmem _].
  intros f Hf.
  destruct (proj1 (Hmem f) Hf) as [Hnil|[[->| ->] _]]; [by apply elem_of_nil in Hnil| |].
  - exists "基于营收和行业标杆估算". apply Hinv. split; [exact Hf|by left].
  - exists "基于营收和行业利润率估算". apply Hinv. split; [exact Hf|by right].
Qed.

Lemma enhancement_methods_recorded_witness :
  ∃ out log,
    enhance_csv_data example_frame = Ok (out, log)
    ∧ enhancement_methods log !! "net_profit" = Some "基于营收和行业利润率估算".
Proof.
  destruct (enhance_csv_data example_frame) as [[out log]|e] eqn:Erun;
    [|vm_compute in Erun; discriminate Erun].
  destruct (enhancement_methods_recorded example_frame out log Erun) as [Hrec _].
  exists out, log. split; [reflexivity|].
  apply Hrec. split; [|by right].
  assert (Hout : Ok (out, log) = enhance_csv_data example_frame) by (symmetry; exact Erun).
  vm_compute in Hout. inversion Hout; subst. simpl. rewrite !elem_of_cons. tauto.
Defined.

(** ** The report and the command line *)

(** The ordered view of the two count dictionaries. *)

Lemma list_to_map_od_insert (k : string) (v : nat) (d : list (string * nat)) :
  (list_to_map (od_insert k v d) : gmap string nat) = <[k := v]> (list_to_map d).
Proof.
  induction d as [|[k' v'] d IH]; simpl; [reflexivity|].
  destruct (decide (k' = k)) as [->|Hne]; simpl.
  - by rewrite insert_insert_eq.
  - rewrite IH. by apply insert_insert_ne.
Qed.

Lemma missing_items_to_map (df : DataFrame) :
  list_to_map (missing_items df) = missing_by_column df.
Proof.
  unfold missing_items, missing_by_column.
  assert (H : ∀ cols (acc : list (string * nat)) (m : gmap string nat),
            list_to_map acc = m →
            list_to_map
              (foldl (fun acc col =>
                        let missing_count := missing_count df col in
                        if Nat.ltb 0 missing_count
                        then od_insert col missing_count acc else acc) acc cols)
            = foldl (fun acc col =>
                       let missing_count := missing_count df col in
                       if Nat.ltb 0 missing_count
                       then <[col := missing_count]> acc else acc) m cols).
  { induction cols as [|c cols IH]; intros acc m Hm; simpl; [exact Hm|].
    apply IH. destruct (Nat.ltb 0 (missing_count df c)); [|exact Hm].
    by rewrite list_to_map_od_insert, Hm. }
  by apply H.
Qed.

Lemma missing_items_nil (df : DataFrame) :
  (∀ c, c ∈ columns df → missing_count df c = 0) → missing_items df = [].
Proof.
  unfold missing_items. generalize (@nil (string * nat)) as acc.
  induction (columns df) as [|c cols IH]; intros acc H; simpl; [reflexivity|].
  rewrite (H c) by (apply elem_of_cons; by left). simpl.
  apply IH. intros c' Hc'. apply H. apply elem_of_cons. by right.
Qed.


Lemma inject_nat_nonzero (n : nat) : n ≠ 0 → ¬ (inject_Z (Z.of_nat n) == 0)%Q.
Proof. intros Hn. unfold Qeq. simpl. lia. Qed.

Lemma missing_line_ok (total : nat) (item : string * nat) :
  total ≠ 0 → ∃ line, missing_line total item = Ok line.
Proof.
  intros Ht. destruct item as [field count]. unfold missing_line.
  rewrite py_div_nonzero by (by apply inject_nat_nonzero). simpl. by eexists.
Qed.

(** The digits are those of the float percentage: 1 of 2000 is printed
    as 0.1 and 129 of 2000 as 6.5, the floats being just above 0.05 and
    6.45. *)
Lemma missing_line_digits :
  missing_line 2000 ("revenue", 1) = Ok ("- revenue: 1条缺失 (0.1%)" +:+ nl)
  ∧ missing_line 2000 ("revenue", 129) = Ok ("- revenue: 129条缺失 (6.5%)" +:+ nl)
  ∧ missing_line 3 ("revenue", 2) = Ok ("- revenue: 2条缺失 (66.7%)" +:+ nl)
  ∧ missing_line 4 ("revenue", 4) = Ok ("- revenue: 4条缺失 (100.0%)" +:+ nl).
Proof. repeat split; vm_compute; reflexivity. Qed.

Lemma missing_line_zero (item : string * nat) :
  missing_line 0 item = Raise ZeroDivisionError.
Proof. by destruct item. Qed.

Lemma add_missing_lines_ok (total : nat) (items : list (string * nat)) :
  total ≠ 0 → ∀ report, ∃ report', add_missing_lines total items report = Ok report'.
Proof.
  intros Ht. induction items as [|item items IH]; intros report; simpl; [by eexists|].
  destruct (missing_line_ok total item Ht) as [line ->]. simpl. apply IH.
Qed.

Lemma add_missing_lines_zero (items : list (string * nat)) (report : string) :
  add_missing_lines 0 items report
  = match items with [] => Ok report | _ :: _ => Raise ZeroDivisionError end.
Proof. destruct items as [|item items]; simpl; [done|]. by rewrite missing_line_zero. Qed.

Lemma render_report_zero (log : ReportLog) :
  rl_total_records log = 0 →
  rl_original_missing log ≠ [] ∨ rl_final_missing log ≠ [] →
  render_report log = Raise ZeroDivisionError.
Proof.
  intros H0 Hitems. unfold render_report. rewrite H0.
  destruct (rl_original_missing log) as [|i1 l1];
    cbn [add_missing_lines mbind result_bind]; rewrite ?missing_line_zero;
    [|reflexivity].
  destruct (rl_final_missing log) as [|i2 l2];
    cbn [add_missing_lines mbind result_bind]; rewrite ?missing_line_zero;
    [|reflexivity].
  by destruct Hitems.
Qed.

Lemma render_report_ok (log : ReportLog) :
  rl_total_records log ≠ 0
  ∨ (rl_original_missing log = [] ∧ rl_final_missing log = []) →
  ∃ report, render_report log = Ok report.
Proof.
  unfold render_report. intros [Hpos|[H1 H2]].
  - match goal with
    | |- context [add_missing_lines _ (rl_original_missing log) ?r] =>
        destruct (add_missing_lines_ok _ (rl_original_missing log) Hpos r) as [r1 Hr1]
    end.
    rewrite Hr1. cbn [mbind result_bind].
    match goal with
    | |- context [add_missing_lines _ (rl_final_missing log) ?r] =>
        destruct (add_missing_lines_ok _ (rl_final_missing log) Hpos r) as [r2 Hr2]
    end.
    rewrite Hr2. by eexists.
  - rewrite H1, H2. by eexists.
Qed.

(** When the report text cannot be built.  Building the text divides by
    [total_records] once per item of the two count dictionaries: when
    [total_records] is 0 and one of the two has an item it raises
    [ZeroDivisionError], before the report file is opened, so the command
    fails and leaves the files as they were; in every other case the text
    is built. *)
Theorem generate_enhancement_report_outcome
    (log : ReportLog) (output_file : string) (w : World) :
  (rl_total_records log = 0
   ∧ (rl_original_missing log ≠ [] ∨ rl_final_missing log ≠ []) →
   render_report log = Raise ZeroDivisionError
   ∧ generate_enhancement_report log output_file w = (w, Fail ZeroDivisionError))
  ∧ (rl_total_records log ≠ 0
     ∨ (rl_original_missing log = [] ∧ rl_final_missing log = []) →
     ∃ report, render_report log = Ok report).
Proof.
  unfold generate_enhancement_report. split.
  - intros [H0 Hitems]. by rewrite (render_report_zero log H0 Hitems).
  - apply render_report_ok.
Qed.

Lemma generate_enhancement_report_outcome_witness :
  render_report zero_records_log = Raise ZeroDivisionError
  ∧ generate_enhancement_report zero_records_log "r.md" (mkWorld ∅ [])
    = (mkWorld ∅ [], Fail ZeroDivisionError).
Proof.
  destruct (generate_enhancement_report_outcome zero_records_log "r.md" (mkWorld ∅ []))
    as [Hraise _].
  apply Hraise. split; [reflexivity|]. left. discriminate.
Defined.

Lemma render_after_enhance (df out : DataFrame) (log : Log) :
  wf_frame df = true →
  enhance_csv_data df = Ok (out, log) →
  ∃ report, render_report (report_log df out log) = Ok report.
Proof.
  intros Hwf Hrun.
  destruct (enhance_csv_data_frame df out log Hwf Hrun) as (Hfi & _).
  apply enhance_csv_data_inv in Hrun. destruct Hrun as (log1 & _ & ->).
  apply wf_frame_spec in Hwf. destruct Hwf as [_ Hsized].
  apply render_report_ok. unfold report_log. simpl.
  destruct (decide (nrows out = 0)) as [Hz|Hnz]; [right|by left].
  assert (Hnone : ∀ d : DataFrame, sized 0 d → ∀ c, missing_count d c = 0).
  { intros d Hd c. unfold missing_count.
    destruct (data d !! c) as [l|] eqn:El; simpl; [|reflexivity].
    apply Hd in El. by destruct l. }
  split; apply missing_items_nil; intros c _; apply Hnone.
  - rewrite <- Hz, (fi_nrows _ _ Hfi). exact Hsized.
  - rewrite <- Hz at 1. rewrite (fi_nrows _ _ Hfi). by destruct Hfi.
Qed.

(** The report for a log that the pass returned is always built: a table
    without rows has no missing value to report, so the division by
    [total_records] is not reached for it.  The two item lists of
    [report_log] are the two count dictionaries of the log. *)
Theorem report_of_enhanced_table (df out : DataFrame) (log : Log) :
  wf_frame df = true →
  enhance_csv_data df = Ok (out, log) →
  list_to_map (rl_original_missing (report_log df out log)) = original_missing log
  ∧ list_to_map (rl_final_missing (report_log df out log)) = final_missing log
  ∧ ∃ report, render_report (report_log df out log) = Ok report.
Proof.
  intros Hwf Hrun.
  split; [|split; [|by apply render_after_enhance]].
  - apply enhance_csv_data_inv in Hrun. destruct Hrun as (log1 & _ & ->).
    apply missing_items_to_map.
  - apply enhance_csv_data_inv in Hrun. destruct Hrun as (log1 & _ & ->).
    apply missing_items_to_map.
Qed.

Lemma report_of_enhanced_table_witness :
  ∃ out log report,
    enhance_csv_data example_frame = Ok (out, log)
    ∧ render_report (report_log example_frame out log) = Ok report.
Proof.
  destruct (enhance_csv_data example_frame) as [[out log]|e] eqn:Erun;
    [|vm_compute in Erun; discriminate Erun].
  destruct (report_of_enhanced_table example_frame out log eq_refl Erun)
    as (_ & _ & report & Hreport).
  exists out, log, report. split; [reflexivity|exact Hreport].
Defined.


Lemma prefix_false_of_str_in (needle s : string) :
  str_in needle s = false → String.prefix needle s = false.
Proof. destruct s; simpl; by intros [? _]%orb_false_iff. Qed.

Lemma str_replace_absent (old new s : string) :
  str_in old s = false → str_replace_from old new 0 s = s.
Proof.
  induction s as [|c s IH]; intros Hin; [reflexivity|].
  pose proof (prefix_false_of_str_in _ _ Hin) as Hp.
  cbn [str_in] in Hin. apply orb_false_iff in Hin. destruct Hin as [_ Hin].
  cbn [str_replace_from]. rewrite Hp. f_equal. by apply IH.
Qed.

Section main_properties.

Variable read_csv : gmap string string → string → result DataFrame.
Variable to_csv : DataFrame → string.

Lemma main_runs (argv : list string) (w : World) :
  main_run read_csv to_csv argv w (main read_csv to_csv argv w).
Proof.
  destruct argv as [|prog [|input [|output rest]]];
    [unfold main, mbind, io_bind, print, sys_exit; simpl;
     rewrite <- !app_assoc; apply run_usage; simpl; lia ..|].
  unfold main, enhance_csv_file, generate_enhancement_report.
  unfold mbind, io_bind, mret, io_ret, print, run, write_file, sys_exit. simpl.
  destruct (str_endswith input ".csv") eqn:Eext; simpl.
  - destruct (read_csv (files w) input) as [df|e] eqn:Eread; simpl;
      [|by eapply run_unreadable].
    destruct (enhance_csv_data df) as [[out log]|e] eqn:Epass; simpl;
      [|by eapply run_pass_failed].
    destruct (render_report (report_log df out log)) as [report|e] eqn:Erep; simpl.
    + rewrite <- !app_assoc. simpl. by eapply run_done.
    + by eapply run_report_failed.
  - rewrite <- !app_assoc. simpl. by eapply run_unsupported.
Qed.

Lemma main_done (prog input output : string) (rest : list string) (w : World)
    (df out : DataFrame) (log : Log) (report : string) :
  str_endswith input ".csv" = true →
  read_csv (files w) input = Ok df →
  enhance_csv_data df = Ok (out, log) →
  render_report (report_log df out log) = Ok report →
  main read_csv to_csv (prog :: input :: output :: rest) w
  = (mkWorld (<[report_file output := report]> (<[output := to_csv out]> (files w)))
       (stdout w ++ ["开始增强数据: " +:+ input; "数据增强完成!";
                     "输出文件: " +:+ output;
                     "增强报告: " +:+ report_file output;
                     "增强了 " +:+ pretty (fields_enhanced log) +:+ " 个字段"]),
     Done tt).
Proof.
  intros Hext Hread Hpass Hrep.
  unfold main, enhance_csv_file, generate_enhancement_report.
  unfold mbind, io_bind, mret, io_ret, print, run, write_file, sys_exit. simpl.
  rewrite Hext. simpl. rewrite Hread. simpl. rewrite Hpass. simpl. rewrite Hrep. simpl.
  by rewrite <- !app_assoc.
Qed.

(** [main] leaves through [sys.exit] exactly when fewer than two
    arguments are given or the input path does not end in ".csv"; the
    exit code is then 1 and no file has been written. *)
Theorem main_exit_iff (argv : list string) (w : World) :
  ((∃ code, (main read_csv to_csv argv w).2 = Exit code)
   ↔ length argv < 3
     ∨ ∃ input, argv !! 1 = Some input ∧ str_endswith input ".csv" = false)
  ∧ (∀ code, (main read_csv to_csv argv w).2 = Exit code →
             code = 1%Z ∧ files (main read_csv to_csv argv w).1 = files w).
Proof.
  pose proof (main_runs argv w) as Hrun.
  remember (main read_csv to_csv argv w) as r eqn:Er. clear Er.
  destruct Hrun as [Hlen|prog input output rest -> Hext|prog input output rest e -> Hext _
                   |prog input output rest df e -> Hext _ _
                   |prog input output rest df out log e -> Hext _ _ _
                   |prog input output rest df out log report -> Hext _ _ _]; simpl.
  - split; [|by intros code [= <-]]. split; [by left|by eexists].
  - split; [|by intros code [= <-]]. split; [|by eexists].
    intros _. right. by exists input.
  - split; [|discriminate]. split; [by intros [code ?]|].
    intros [Hlen|(i & [= <-] & Hi)]; [simpl in Hlen; lia|congruence].
  - split; [|discriminate]. split; [by intros [code ?]|].
    intros [Hlen|(i & [= <-] & Hi)]; [simpl in Hlen; lia|congruence].
  - split; [|discriminate]. split; [by intros [code ?]|].
    intros [Hlen|(i & [= <-] & Hi)]; [simpl in Hlen; lia|congruence].
  - split; [|discriminate]. split; [by intros [code ?]|].
    intros [Hlen|(i & [= <-] & Hi)]; [simpl in Hlen; lia|congruence].
Qed.

(** [main] writes no file but the output path and the report path, and
    it writes none before the input table has been read and the fill
    pass has returned. *)
Theorem main_writes_only_results (argv : list string) (w : World) (path : string) :
  files (main read_csv to_csv argv w).1 !! path ≠ files w !! path →
  ∃ input output df out log,
    argv !! 1 = Some input ∧ argv !! 2 = Some output
    ∧ str_endswith input ".csv" = true
    ∧ read_csv (files w) input = Ok df
    ∧ enhance_csv_data df = Ok (out, log)
    ∧ (path = output ∨ path = report_file output).
Proof.
  pose proof (main_runs argv w) as Hrun.
  remember (main read_csv to_csv argv w) as r eqn:Er. clear Er.
  destruct Hrun as [Hlen|prog input output rest -> Hext|prog input output rest e -> Hext _
                   |prog input output rest df e -> Hext _ _
                   |prog input output rest df out log e -> Hext Hread Hpass _
                   |prog input output rest df out log report -> Hext Hread Hpass _];
    simpl; intros Hne; try done.
  - exists input, output, df, out, log. repeat (split; [done|]).
    destruct (decide (path = output)) as [->|Hp]; [by left|].
    by rewrite lookup_insert_ne in Hne.
  - exists input, output, df, out, log. repeat (split; [done|]).
    destruct (decide (path = output)) as [->|Hp]; [by left|].
    destruct (decide (path = report_file output)) as [->|Hr]; [by right|].
    by rewrite !lookup_insert_ne in Hne.
Qed.

(** A complete run.  When [main], given an input path ending in ".csv"
    from which a table is read and on which the fill pass returns,
    finishes normally, the report file holds the report of the log, every
    path other than the output and report paths is as before, and the
    output file holds the enhanced table when the report path is a
    different path. *)
Theorem main_complete_run (prog input output : string) (rest : list string) (w : World)
    (df out : DataFrame) (log : Log) :
  str_endswith input ".csv" = true →
  read_csv (files w) input = Ok df →
  enhance_csv_data df = Ok (out, log) →
  (main read_csv to_csv (prog :: input :: output :: rest) w).2 = Done tt →
  ∃ report,
    render_report (report_log df out log) = Ok report
    ∧ files (main read_csv to_csv (prog :: input :: output :: rest) w).1
        !! report_file output = Some report
    ∧ (report_file output ≠ output →
       files (main read_csv to_csv (prog :: input :: output :: rest) w).1 !! output
       = Some (to_csv out))
    ∧ (∀ path, path ≠ output → path ≠ report_file output →
       files (main read_csv to_csv (prog :: input :: output :: rest) w).1 !! path
       = files w !! path).
Proof.
  intros Hext Hread Hpass Hdone.
  pose proof (main_runs (prog :: input :: output :: rest) w) as Hrun.
  remember (main read_csv to_csv (prog :: input :: output :: rest) w) as r eqn:Er.
  clear Er.
  destruct Hrun as [Hlen|prog' input' output' rest' Hargv Hext'
                   |prog' input' output' rest' e Hargv Hext' Hread'
                   |prog' input' output' rest' df' e Hargv Hext' Hread' Hpass'
                   |prog' input' output' rest' df' out' log' e Hargv Hext' Hread' Hpass' Hrep
                   |prog' input' output' rest' df' out' log' report Hargv Hext' Hread' Hpass'
                      Hrep];
    simpl in Hdone; try discriminate Hdone.
  inversion Hargv; subst prog' input' output' rest'.
  rewrite Hread in Hread'. inversion Hread'; subst df'.
  rewrite Hpass in Hpass'. inversion Hpass'; subst out' log'.
  exists report. split; [exact Hrep|]. simpl.
  split; [by rewrite lookup_insert_eq|]. split.
  - intros Hne. by rewrite lookup_insert_ne, lookup_insert_eq.
  - intros path H1 H2. by rewrite !lookup_insert_ne.
Qed.

(** When the output path contains no ".csv", the report path is the
    output path itself: after a complete run the output file holds the
    report, written over the enhanced table. *)
Theorem main_report_overwrites_table
    (prog input output : string) (rest : list string) (w : World)
    (df out : DataFrame) (log : Log) :
  str_in ".csv" output = false →
  str_endswith input ".csv" = true →
  read_csv (files w) input = Ok df →
  wf_frame df = true →
  enhance_csv_data df = Ok (out, log) →
  report_file output = output
  ∧ ∃ report,
      render_report (report_log df out log) = Ok report
      ∧ files (main read_csv to_csv (prog :: input :: output :: rest) w).1 !! output
        = Some report.
Proof.
  intros Hcsv Hext Hread Hwf Hpass.
  assert (Hsame : report_file output = output) by (by apply str_replace_absent).
  split; [exact Hsame|].
  destruct (render_after_enhance df out log Hwf Hpass) as [report Hrep].
  exists report. split; [exact Hrep|].
  rewrite (main_done prog input output rest w df out log report Hext Hread Hpass Hrep).
  simpl. rewrite Hsame. by rewrite lookup_insert_eq.
Qed.

End main_properties.

Lemma main_exit_iff_witness :
  (main sample_read_csv sample_to_csv ["prog"; "in.json"; "out.csv"] sample_world).2
  = Exit 1
  ∧ files (main sample_read_csv sample_to_csv ["prog"; "in.json"; "out.csv"]
             sample_world).1
    = files sample_world.
Proof.
  destruct (main_exit_iff sample_read_csv sample_to_csv
              ["prog"; "in.json"; "out.csv"] sample_world) as [_ Hexit].
  assert (Hcode : (main sample_read_csv sample_to_csv ["prog"; "in.json"; "out.csv"]
                     sample_world).2 = Exit 1) by reflexivity.
  split; [exact Hcode|]. by apply (Hexit 1%Z).
Defined.

Lemma main_writes_only_results_witness :
  ∃ input output df out log,
    ["prog"; "in.csv"; "out.csv"] !! 1 = Some input
    ∧ ["prog"; "in.csv"; "out.csv"] !! 2 = Some output
    ∧ str_endswith input ".csv" = true
    ∧ sample_read_csv (files sample_world) input = Ok df
    ∧ enhance_csv_data df = Ok (out, log)
    ∧ ("out.csv" = output ∨ "out.csv" = report_file output).
Proof.
  apply (main_writes_only_results sample_read_csv sample_to_csv
           ["prog"; "in.csv"; "out.csv"] sample_world "out.csv").
  vm_compute. discriminate.
Defined.

Lemma main_complete_run_witness :
  ∃ out log report,
    enhance_csv_data example_frame = Ok (out, log)
    ∧ render_report (report_log example_frame out log) = Ok report
    ∧ files (main sample_read_csv sample_to_csv ["prog"; "in.csv"; "out.csv"]
               sample_world).1 !! "out_enhancement_report.md"
      = Some report
    ∧ files (main sample_read_csv sample_to_csv ["prog"; "in.csv"; "out.csv"]
               sample_world).1 !! "out.csv"
      = Some (sample_to_csv out).
Proof.
  destruct (enhance_csv_data example_frame) as [[out log]|e] eqn:Erun;
    [|vm_compute in Erun; discriminate Erun].
  destruct (main_complete_run sample_read_csv sample_to_csv "prog" "in.csv" "out.csv" []
              sample_world example_frame out log eq_refl eq_refl Erun)
    as (report & Hrep & Hfile & Hout & _).
  { vm_compute. reflexivity. }
  exists out, log, report. split; [reflexivity|]. split; [exact Hrep|].
  split; [exact Hfile|]. apply Hout. vm_compute. discriminate.
Defined.

Lemma main_report_overwrites_table_witness :
  ∃ out log report,
    enhance_csv_data example_frame = Ok (out, log)
    ∧ report_file "out.txt" = "out.txt"
    ∧ render_report (report_log example_frame out log) = Ok report
    ∧ files (main sample_read_csv sample_to_csv ["prog"; "in.csv"; "out.txt"]
               sample_world).1 !! "out.txt"
      = Some report.
Proof.
  destruct (enhance_csv_data example_frame) as [[out log]|e] eqn:Erun;
    [|vm_compute in Erun; discriminate Erun].
  destruct (main_report_overwrites_table sample_read_csv sample_to_csv
              "prog" "in.csv" "out.txt" [] sample_world example_frame out log
              eq_refl eq_refl eq_refl eq_refl Erun)
    as (Hsame & report & Hrep & Hfile).
  exists out, log, report. split; [reflexivity|]. split; [exact Hsame|].
  split; [exact Hrep|exact Hfile].
Defined.
